(** * Linear dependency segmentation: clause and segment extraction

    A shallow embedding of [segmenter.py].  The Python functions take a
    [conll3.Tree], a dict from token ids to token dicts, and either return
    a value or raise.  Python results are modelled in the [result] monad,
    dict iteration order by an association list, and the recursion of the
    clause-boundary finder by a fuel counter standing for the depth of the
    interpreter's stack. *)

From Stdlib Require Import ZArith List String Bool Lia Permutation Sorted.
From Stdlib Require Import Relations.Relation_Operators Relations.Operators_Properties.
Import ListNotations.

Local Open Scope string_scope.
Local Open Scope list_scope.
Local Open Scope Z_scope.

(* ------------------------------------------------------------------ *)
(** ** Python results *)

Inductive exn : Type :=
| KeyError        (* a dict subscript whose key is absent *)
| IndexError      (* a list subscript out of range *)
| RecursionError. (* the recursion went deeper than the fuel *)

Inductive result (A : Type) : Type :=
| Ok (a : A)
| Raise (e : exn).

Arguments Ok {A} a.
Arguments Raise {A} e.

Definition bind {A B : Type} (m : result A) (k : A -> result B) : result B :=
  match m with
  | Ok a => k a
  | Raise e => Raise e
  end.

Notation "x <- m ;; k" := (bind m (fun x => k))
  (at level 61, m at next level, right associativity).

(** The value of a function body that may fall off its end: [None] is
    Python's [None], [Some b] is the boolean [b]. *)
Definition pyval := option bool.

(** Truth value of a [pyval] in [if] and [not]. *)
Definition truthy (v : pyval) : bool :=
  match v with
  | Some b => b
  | None => false
  end.

(* ------------------------------------------------------------------ *)
(** ** Tokens and trees *)

(** One token dict: ["tag"] is the coarse part of speech, ["xpos"] the
    fine-grained tag, [gov] and [rel] the single entry of ["gov"], and
    [kids] the keys of ["kids"] in insertion order.  The governor id uses
    the sentinels of the source: [0] for the root, [-1] for an unattached
    token. *)
Record Token : Type := mkToken {
  tag  : string;
  xpos : string;
  gov  : Z;
  rel  : string;
  kids : list Z
}.

(** A tree is a dict; the association list keeps its iteration order. *)
Definition Tree := list (Z * Token).

Definition keys (t : Tree) : list Z := map fst t.

Fixpoint lookup (t : Tree) (i : Z) : option Token :=
  match t with
  | [] => None
  | (j, tok) :: t' => if j =? i then Some tok else lookup t' i
  end.

(** [tree[i]] *)
Definition getitem (t : Tree) (i : Z) : result Token :=
  match lookup t i with
  | Some tok => Ok tok
  | None => Raise KeyError
  end.

(** The spec's reading of a governor id. *)
Inductive govref : Type :=
| Root
| Governor (g : Z)
| Unattached.

Definition governor_ref (g : Z) : govref :=
  if g =? 0 then Root
  else if g =? -1 then Unattached
  else Governor g.

(** Modelled from the spec: [Tree.idgovRel] of the [conll3] module, which
    is not part of the sources.  It is the governor lookup of the tree
    accessor: the governor id of token [i] ([0] root, [-1] unattached)
    with the relation label. *)
Definition idgovRel (t : Tree) (i : Z) : result (Z * string) :=
  tok <- getitem t i ;;
  Ok (gov tok, rel tok).

(** Modelled from the spec: [Tree.get_kids] of the [conll3] module, the
    child lookup of the tree accessor. *)
Definition get_kids (t : Tree) (i : Z) : result (list Z) :=
  tok <- getitem t i ;;
  Ok (kids tok).

(** Modelled from the spec: [Tree.addkids] of the [conll3] module, the
    one-time derivation of every child set from the governor references:
    the children of [i] are the tokens whose reference is [Governor i],
    in sentence order. *)
Definition is_child_of (i : Z) (e : Z * Token) : bool :=
  match governor_ref (gov (snd e)) with
  | Governor g => g =? i
  | _ => false
  end.

Definition children_of (t : Tree) (i : Z) : list Z :=
  map fst (filter (is_child_of i) t).

Definition set_kids (ks : list Z) (tok : Token) : Token :=
  mkToken (tag tok) (xpos tok) (gov tok) (rel tok) ks.

Definition addkids (t : Tree) : Tree :=
  map (fun e => (fst e, set_kids (children_of t (fst e)) (snd e))) t.

(* ------------------------------------------------------------------ *)
(** ** Classifiers *)

(** [s[:2]] *)
Definition prefix2 (s : string) : string := substring 0 2 s.

(** [x in [...]] on strings *)
Definition str_in (x : string) (l : list string) : bool :=
  existsb (String.eqb x) l.

(** [for k in ks: if p(k): return True] followed by [return False]; a
    raise of [p] leaves the loop. *)
Fixpoint any_kid (p : Z -> result bool) (ks : list Z) : result bool :=
  match ks with
  | [] => Ok false
  | k :: ks' =>
      b <- p k ;;
      if b then Ok true else any_kid p ks'
  end.

Definition xpos_is_Vp (t : Tree) (k : Z) : result bool :=
  tok <- getitem t k ;;
  Ok (String.eqb (prefix2 (xpos tok)) "Vp").

Definition is_finite_verb (t : Tree) (i : Z) : result bool :=
  tok <- getitem t i ;;
  if str_in (prefix2 (xpos tok)) ["Vc"; "Vs"; "VB"; "Vi"] then Ok true
  else if String.eqb (prefix2 (xpos tok)) "Vp" then
    gr <- idgovRel t i ;;
    let idgov := fst gr in
    if idgov =? 0 then Ok true
    else
      g <- getitem t idgov ;;
      if negb (String.eqb (tag g) "AUX") then Ok true else Ok false
  else if String.eqb (tag tok) "AUX" then
    any_kid (xpos_is_Vp t) (kids tok)
  else Ok false.

Definition is_finite_verb_or_sconj (t : Tree) (i : Z) : result pyval :=
  tok <- getitem t i ;;
  if String.eqb (tag tok) "SCONJ" then
    b <- any_kid (is_finite_verb t) (kids tok) ;;
    Ok (Some b)
  else
    fv <- is_finite_verb t i ;;
    if fv then
      gr <- idgovRel t i ;;
      let idgov := fst gr in
      if idgov =? 0 then Ok (Some true)
      else
        g <- getitem t idgov ;;
        if String.eqb (tag g) "SCONJ" then Ok (Some false) else Ok (Some true)
    else Ok None.

(** A token is an anchor when the classifier returns a true value. *)
Definition is_anchor (t : Tree) (i : Z) : bool :=
  match is_finite_verb_or_sconj t i with
  | Ok v => truthy v
  | Raise _ => false
  end.

(** [[c for c in l if not is_finite_verb_or_sconj(tree, c)]] *)
Fixpoint drop_anchors (t : Tree) (l : list Z) : result (list Z) :=
  match l with
  | [] => Ok []
  | c :: l' =>
      v <- is_finite_verb_or_sconj t c ;;
      r <- drop_anchors t l' ;;
      Ok (if truthy v then r else c :: r)
  end.

(* ------------------------------------------------------------------ *)
(** ** Clause boundaries *)

(** [for x in l: body], the loop state threaded through the iterations;
    a raise of the body leaves the loop. *)
Fixpoint for_each {X S : Type} (l : list X) (s : S)
    (body : X -> S -> result S) : result S :=
  match l with
  | [] => Ok s
  | x :: l' =>
      s' <- body x s ;;
      for_each l' s' body
  end.

(** The recursion of the source, [fuel] frames deep at most. *)
Fixpoint get_descendants_until_Fin_Verb (fuel : nat) (t : Tree) (i : Z)
    : result (list Z) :=
  match fuel with
  | O => Raise RecursionError
  | S fuel' =>
      children <- get_kids t i ;;
      children <- drop_anchors t children ;;
      let descendants := [] ++ children in
      match children with
      | [] => Ok descendants
      | _ =>
          for_each children descendants (fun c descendants =>
            x <- get_descendants_until_Fin_Verb fuel' t c ;;
            match x with
            | [] => Ok descendants
            | _ =>
                x <- drop_anchors t x ;;
                Ok (descendants ++ x)
            end)
      end
  end.

(** [sorted] on a list of ints. *)
Fixpoint insert_sorted (x : Z) (l : list Z) : list Z :=
  match l with
  | [] => [x]
  | y :: l' => if x <=? y then x :: l else y :: insert_sorted x l'
  end.

Definition sorted (l : list Z) : list Z := fold_right insert_sorted [] l.

(** [[i for i in tree if is_finite_verb_or_sconj(tree, i)]] *)
Fixpoint keep_anchors (t : Tree) (l : list Z) : result (list Z) :=
  match l with
  | [] => Ok []
  | i :: l' =>
      v <- is_finite_verb_or_sconj t i ;;
      r <- keep_anchors t l' ;;
      Ok (if truthy v then i :: r else r)
  end.

Definition clause_segmentation (fuel : nat) (t0 : Tree)
    : result (list (list Z)) :=
  let clauses := [] in
  let t := addkids t0 in
  fin_verbs <- keep_anchors t (keys t) ;;
  match fin_verbs with
  | [] => Ok []
  | _ =>
      for_each fin_verbs clauses (fun root clauses =>
        descendants <- get_descendants_until_Fin_Verb fuel t root ;;
        let clause := sorted (descendants ++ [root]) in
        Ok (clauses ++ [clause]))
  end.

(* ------------------------------------------------------------------ *)
(** ** Linear dependency segments *)

Definition is_syntactic_bigram (t : Tree) (id_1 id_2 : Z) : result bool :=
  gr1 <- idgovRel t id_1 ;;
  if fst gr1 =? id_2 then Ok true
  else
    gr2 <- idgovRel t id_2 ;;
    if fst gr2 =? id_1 then Ok true
    else Ok false.

Fixpoint is_complete_loop (t : Tree) (l : list Z) : result bool :=
  match l with
  | [] => Ok true
  | i :: l' =>
      gr <- idgovRel t i ;;
      if fst gr =? -1 then Ok false else is_complete_loop t l'
  end.

Definition is_complete (t : Tree) : result bool :=
  is_complete_loop t (keys t).

(** [l[i]] at an index that is not negative. *)
Definition index (l : list Z) (i : nat) : result Z :=
  match nth_error l i with
  | Some x => Ok x
  | None => Raise IndexError
  end.

(** [segments[-1].append(x)] *)
Fixpoint append_last (segments : list (list Z)) (x : Z)
    : result (list (list Z)) :=
  match segments with
  | [] => Raise IndexError
  | [s] => Ok [s ++ [x]]
  | s :: rest =>
      rest' <- append_last rest x ;;
      Ok (s :: rest')
  end.

(** [range(1, n)] *)
Definition range1 (n : nat) : list nat := seq 1 (n - 1).

Definition syntactically_linked_ngrams_1 (t : Tree) (clause : list Z)
    : result (list (list Z)) :=
  c0 <- index clause 0 ;;
  for_each (range1 (List.length clause)) [[c0]] (fun i segments =>
    ci <- index clause i ;;
    cp <- index clause (i - 1) ;;
    linked <- is_syntactic_bigram t ci cp ;;
    if linked then append_last segments ci
    else Ok (segments ++ [[ci]])).

Definition syntactically_linked_ngrams_2 (t : Tree) (clause : list Z)
    : result (list (list Z)) :=
  c0 <- index clause 0 ;;
  for_each (range1 (List.length clause)) [[c0]] (fun i segments =>
    cp <- index clause (i - 1) ;;
    ci <- index clause i ;;
    linked <- (if cp + 1 =? ci then is_syntactic_bigram t ci cp
               else Ok false) ;;
    if linked then append_last segments ci
    else Ok (segments ++ [[ci]])).

(* ------------------------------------------------------------------ *)
(** ** The sentence of the source's example

    "Vcera jsem rekla, ze Jana je nemocna." with the two punctuation
    tokens (ids 4 and 9) removed and no child sets yet. *)

Definition tok (tg xp : string) (g : Z) (r : string) : Token :=
  mkToken tg xp g r [].

Definition tree_example : Tree :=
  [ (1, tok "ADV"   "Db-------------" 3 "advmod");
    (2, tok "AUX"   "VB-S---1P-AA---" 3 "aux");
    (3, tok "VERB"  "VpQW---XR-AA---" 0 "root");
    (5, tok "SCONJ" "J,-------------" 8 "mark");
    (6, tok "PROPN" "NNFS1-----A----" 8 "nsubj");
    (7, tok "AUX"   "VB-S---3P-AA---" 8 "cop");
    (8, tok "ADJ"   "AAFS1----1A----" 3 "ccomp") ].

(* ------------------------------------------------------------------ *)
(** ** Basic facts on results, lookups and governor references *)

Lemma bind_Ok {A B : Type} (m : result A) (k : A -> result B) (b : B) :
  bind m k = Ok b -> exists a, m = Ok a /\ k a = Ok b.
Proof.
  destruct m as [a | e]; simpl; intros H.
  - exists a. split; [reflexivity | exact H].
  - discriminate H.
Qed.

Ltac inv_bind H :=
  let a := fresh "a" in
  let Ha := fresh "Ha" in
  apply bind_Ok in H; destruct H as [a [Ha H]].

Lemma lookup_Some_In (t : Tree) (i : Z) (tk : Token) :
  lookup t i = Some tk -> In (i, tk) t.
Proof.
  induction t as [| [j tj] t IH]; simpl; intros H.
  - discriminate H.
  - destruct (Z.eqb_spec j i) as [-> | Hne].
    + injection H as ->. now left.
    + right. now apply IH.
Qed.

Lemma lookup_Some_keys (t : Tree) (i : Z) (tk : Token) :
  lookup t i = Some tk -> In i (keys t).
Proof.
  intros H. apply lookup_Some_In in H.
  unfold keys. apply in_map_iff. now exists (i, tk).
Qed.

Lemma keys_lookup (t : Tree) (i : Z) :
  In i (keys t) -> exists tk, lookup t i = Some tk.
Proof.
  induction t as [| [j tj] t IH]; simpl; intros H.
  - contradiction.
  - destruct (Z.eqb_spec j i) as [-> | Hne].
    + now exists tj.
    + destruct H as [H | H]; [contradiction | now apply IH].
Qed.

Lemma In_lookup_NoDup (t : Tree) (i : Z) (tk : Token) :
  NoDup (keys t) -> In (i, tk) t -> lookup t i = Some tk.
Proof.
  induction t as [| [j tj] t IH]; simpl; intros Hnd Hin.
  - contradiction.
  - inversion Hnd as [| ? ? Hnotin Hnd']; subst.
    destruct Hin as [Heq | Hin].
    + injection Heq as -> ->. now rewrite Z.eqb_refl.
    + destruct (Z.eqb_spec j i) as [-> | Hne].
      * exfalso. apply Hnotin. unfold keys. apply in_map_iff.
        now exists (i, tk).
      * now apply IH.
Qed.

Lemma getitem_Ok (t : Tree) (i : Z) (tk : Token) :
  getitem t i = Ok tk <-> lookup t i = Some tk.
Proof.
  unfold getitem. destruct (lookup t i); split; intros H;
    try discriminate H; now inversion H.
Qed.

Lemma governor_ref_Root (g : Z) : governor_ref g = Root <-> g = 0.
Proof.
  unfold governor_ref.
  destruct (Z.eqb_spec g 0); [tauto |].
  destruct (Z.eqb_spec g (-1)); split; intros H; congruence.
Qed.

Lemma governor_ref_Unattached (g : Z) :
  governor_ref g = Unattached <-> g = -1.
Proof.
  unfold governor_ref.
  destruct (Z.eqb_spec g 0) as [-> | ?]; [split; intros H; discriminate H |].
  destruct (Z.eqb_spec g (-1)); split; intros H; congruence.
Qed.

Lemma governor_ref_Governor (g p : Z) :
  governor_ref g = Governor p <-> g = p /\ g <> 0 /\ g <> -1.
Proof.
  unfold governor_ref.
  destruct (Z.eqb_spec g 0); [split; [intros H; discriminate H | tauto] |].
  destruct (Z.eqb_spec g (-1)); [split; [intros H; discriminate H | tauto] |].
  split; [intros H; injection H as ->; tauto | intros [-> _]; reflexivity].
Qed.

(* ------------------------------------------------------------------ *)
(** ** The finite-verb and anchor classifiers *)

(** C6: a token whose fine-grained tag starts with Vp is not a finite
    verb when its governor is a token tagged AUX, and is a finite verb
    when its governor reference is Root. *)
Theorem is_finite_verb_Vp (t : Tree) (i : Z) (tk : Token) :
  lookup t i = Some tk ->
  prefix2 (xpos tk) = "Vp" ->
  (forall g gt,
      governor_ref (gov tk) = Governor g ->
      lookup t g = Some gt ->
      tag gt = "AUX" ->
      is_finite_verb t i = Ok false)
  /\ (governor_ref (gov tk) = Root -> is_finite_verb t i = Ok true).
Proof.
  intros Hi Hvp.
  assert (Hbody : is_finite_verb t i =
                  if gov tk =? 0 then Ok true
                  else g <- getitem t (gov tk) ;;
                       if negb (String.eqb (tag g) "AUX") then Ok true
                       else Ok false).
  { unfold is_finite_verb, idgovRel, getitem. rewrite Hi. simpl.
    rewrite Hvp. reflexivity. }
  split.
  - intros g gt Hg Hgt Haux.
    apply governor_ref_Governor in Hg. destruct Hg as [Hg [Hn0 _]].
    rewrite Hbody. apply Z.eqb_neq in Hn0. rewrite Hn0.
    unfold getitem. rewrite Hg, Hgt. simpl. rewrite Haux. reflexivity.
  - intros Hroot. apply governor_ref_Root in Hroot.
    rewrite Hbody, Hroot. reflexivity.
Qed.

Lemma is_finite_verb_Vp_witness :
  is_finite_verb [(1, tok "AUX" "VB-S---3P-AA---" 0 "root");
                  (2, tok "VERB" "VpYS---XR-AA---" 1 "comp:aux")] 2
    = Ok false
  /\ is_finite_verb tree_example 3 = Ok true.
Proof.
  split.
  - refine (proj1 (is_finite_verb_Vp _ 2 _ _ _) 1 _ _ _ _);
      reflexivity.
  - refine (proj2 (is_finite_verb_Vp _ 3 _ _ _) _); reflexivity.
Defined.

(** The classifier falls off the end of its body, so the value it
    returns for such a token is [None]. *)
Lemma is_finite_verb_or_sconj_falls_through (t : Tree) (i : Z) (tk : Token) :
  lookup t i = Some tk ->
  tag tk <> "SCONJ" ->
  is_finite_verb t i = Ok false ->
  is_finite_verb_or_sconj t i = Ok None.
Proof.
  intros Hi Htag Hfv.
  unfold is_finite_verb_or_sconj, getitem. rewrite Hi. simpl.
  apply String.eqb_neq in Htag. rewrite Htag, Hfv. reflexivity.
Qed.

(** C9: for a token that is neither tagged SCONJ nor a finite verb the
    anchor classifier returns, without raising, a value that is false in
    a boolean test. *)
Theorem is_finite_verb_or_sconj_negative (t : Tree) (i : Z) (tk : Token) :
  lookup t i = Some tk ->
  tag tk <> "SCONJ" ->
  is_finite_verb t i = Ok false ->
  exists v, is_finite_verb_or_sconj t i = Ok v /\ truthy v = false.
Proof.
  intros Hi Htag Hfv. exists None. split; [| reflexivity].
  now apply is_finite_verb_or_sconj_falls_through with tk.
Qed.

Lemma is_finite_verb_or_sconj_negative_witness :
  exists v, is_finite_verb_or_sconj tree_example 6 = Ok v
            /\ truthy v = false.
Proof.
  refine (is_finite_verb_or_sconj_negative tree_example 6 _ _ _ _).
  - reflexivity.
  - simpl. discriminate.
  - reflexivity.
Defined.

(** Whether some child of the token has a fine-grained tag in Vp. *)
Definition has_Vp_kid (t : Tree) (tk : Token) : Prop :=
  exists k kt,
    In k (kids tk) /\ lookup t k = Some kt /\ prefix2 (xpos kt) = "Vp".

Lemma any_kid_xpos_is_Vp (t : Tree) (ks : list Z) :
  Forall (fun k => In k (keys t)) ks ->
  (any_kid (xpos_is_Vp t) ks = Ok true
   /\ exists k kt, In k ks /\ lookup t k = Some kt
                   /\ prefix2 (xpos kt) = "Vp")
  \/ (any_kid (xpos_is_Vp t) ks = Ok false
      /\ forall k kt, In k ks -> lookup t k = Some kt ->
                      prefix2 (xpos kt) <> "Vp").
Proof.
  induction 1 as [| k ks Hk _ IH].
  - right. split; [reflexivity | intros k kt []].
  - apply keys_lookup in Hk. destruct Hk as [kt Hkt].
    simpl. unfold xpos_is_Vp at 1 3, getitem. rewrite Hkt. simpl.
    destruct (String.eqb_spec (prefix2 (xpos kt)) "Vp") as [Hvp | Hvp].
    + left. split; [reflexivity |]. exists k, kt. simpl. auto.
    + destruct IH as [[Hany (k' & kt' & Hin & Hl & Hp)] | [Hany Hnone]].
      * left. split; [exact Hany |]. exists k', kt'. simpl. auto.
      * right. split; [exact Hany |].
        intros k' kt' [<- | Hin] Hl.
        -- rewrite Hkt in Hl. injection Hl as <-. exact Hvp.
        -- now apply Hnone with k'.
Qed.

(** C7, as stated, fails in both directions: an AUX token tagged VB with
    no child is an anchor (token 7 of the example), and an AUX token with
    a Vp child is not an anchor when a SCONJ token governs it. *)
Lemma aux_anchor_counterexample :
  ~ (forall t i tk, lookup t i = Some tk -> tag tk = "AUX" ->
       ~ has_Vp_kid t tk -> is_anchor t i = false)
  /\ ~ (forall t i tk, lookup t i = Some tk -> tag tk = "AUX" ->
          has_Vp_kid t tk -> is_anchor t i = true).
Proof.
  split.
  - intros H.
    specialize (H (addkids tree_example) 7 _ eq_refl eq_refl).
    assert (Hno : ~ has_Vp_kid (addkids tree_example)
                    (set_kids [] (tok "AUX" "VB-S---3P-AA---" 8 "cop"))).
    { intros (k & kt & Hin & _). exact Hin. }
    specialize (H Hno). vm_compute in H. discriminate H.
  - intros H.
    pose (t := addkids
                 [ (1, tok "SCONJ" "J,-------------" 0 "root");
                   (2, tok "AUX" "Vf--------A----" 1 "comp:obj");
                   (3, tok "VERB" "VpYS---XR-AA---" 2 "comp:aux") ]).
    specialize (H t 2 _ eq_refl eq_refl).
    assert (Hyes : has_Vp_kid t
                     (set_kids [3] (tok "AUX" "Vf--------A----" 1 "comp:obj"))).
    { exists 3, (set_kids [] (tok "VERB" "VpYS---XR-AA---" 2 "comp:aux")).
      repeat split. simpl. now left. }
    specialize (H Hyes). vm_compute in H. discriminate H.
Qed.

(** C7, amended: for an AUX token whose fine-grained tag starts with none
    of Vc, Vs, VB, Vi, Vp and whose children are tokens of the tree, the
    token is a finite verb exactly when a child is tagged Vp; without
    such a child it is not an anchor; with one it is an anchor when its
    governor is Root or a token not tagged SCONJ, and not an anchor when
    its governor is a token tagged SCONJ. *)
Theorem aux_anchor (t : Tree) (i : Z) (tk : Token) :
  lookup t i = Some tk ->
  tag tk = "AUX" ->
  str_in (prefix2 (xpos tk)) ["Vc"; "Vs"; "VB"; "Vi"; "Vp"] = false ->
  Forall (fun k => In k (keys t)) (kids tk) ->
  (~ has_Vp_kid t tk ->
     is_finite_verb t i = Ok false /\ is_anchor t i = false
     /\ is_finite_verb_or_sconj t i = Ok None)
  /\ (has_Vp_kid t tk ->
      is_finite_verb t i = Ok true
      /\ (governor_ref (gov tk) = Root ->
          is_finite_verb_or_sconj t i = Ok (Some true))
      /\ (forall gt, gov tk <> 0 -> lookup t (gov tk) = Some gt ->
            is_finite_verb_or_sconj t i
            = Ok (Some (negb (String.eqb (tag gt) "SCONJ"))))).
Proof.
  intros Hi Haux Hpre Hkids.
  assert (Hfv : is_finite_verb t i = any_kid (xpos_is_Vp t) (kids tk)).
  { unfold is_finite_verb, getitem. rewrite Hi. simpl.
    unfold str_in in Hpre. simpl in Hpre. simpl.
    destruct (String.eqb (prefix2 (xpos tk)) "Vc"); [discriminate Hpre |].
    destruct (String.eqb (prefix2 (xpos tk)) "Vs"); [discriminate Hpre |].
    destruct (String.eqb (prefix2 (xpos tk)) "VB"); [discriminate Hpre |].
    destruct (String.eqb (prefix2 (xpos tk)) "Vi"); [discriminate Hpre |].
    destruct (String.eqb (prefix2 (xpos tk)) "Vp"); [discriminate Hpre |].
    simpl. rewrite Haux. reflexivity. }
  assert (Hcl : is_finite_verb_or_sconj t i =
                fv <- is_finite_verb t i ;;
                if fv then
                  if gov tk =? 0 then Ok (Some true)
                  else g <- getitem t (gov tk) ;;
                       if String.eqb (tag g) "SCONJ" then Ok (Some false)
                       else Ok (Some true)
                else Ok None).
  { unfold is_finite_verb_or_sconj, idgovRel, getitem. rewrite Hi. simpl.
    rewrite Haux. simpl. reflexivity. }
  destruct (any_kid_xpos_is_Vp t (kids tk) Hkids)
    as [[Hany Hex] | [Hany Hnone]].
  - split.
    + intros Hno. exfalso. apply Hno. exact Hex.
    + intros _. rewrite Hfv, Hany. split; [reflexivity |].
      rewrite Hcl, Hfv, Hany. simpl. split.
      * intros Hroot. apply governor_ref_Root in Hroot.
        rewrite Hroot. reflexivity.
      * intros gt Hn0 Hgt. apply Z.eqb_neq in Hn0. rewrite Hn0.
        unfold getitem. rewrite Hgt. simpl.
        destruct (String.eqb (tag gt) "SCONJ"); reflexivity.
  - split.
    + intros _. rewrite Hfv, Hany. split; [reflexivity |].
      unfold is_anchor. rewrite Hcl, Hfv, Hany. simpl. auto.
    + intros (k & kt & Hin & Hl & Hp). exfalso.
      now apply (Hnone k kt).
Qed.

Lemma aux_anchor_witness :
  let t := addkids
             [ (1, tok "SCONJ" "J,-------------" 0 "root");
               (2, tok "AUX" "Vf--------A----" 1 "comp:obj");
               (3, tok "VERB" "VpYS---XR-AA---" 2 "comp:aux") ] in
  is_finite_verb t 2 = Ok true
  /\ is_finite_verb_or_sconj t 2 = Ok (Some false).
Proof.
  intros t.
  assert (Hk : Forall (fun k => In k (keys t)) [3]).
  { constructor; [| constructor]. simpl. auto. }
  assert (Hv : has_Vp_kid t
                 (set_kids [3] (tok "AUX" "Vf--------A----" 1 "comp:obj"))).
  { exists 3, (set_kids [] (tok "VERB" "VpYS---XR-AA---" 2 "comp:aux")).
    repeat split. simpl. now left. }
  destruct (aux_anchor t 2 _ eq_refl eq_refl eq_refl Hk) as [_ Hyes].
  destruct (Hyes Hv) as (Hfv & _ & Hgov).
  split; [exact Hfv |].
  apply (Hgov (set_kids [2] (tok "SCONJ" "J,-------------" 0 "root")));
    [discriminate | reflexivity].
Defined.

(* ------------------------------------------------------------------ *)
(** ** Completeness *)

Lemma is_complete_loop_spec (t : Tree) (l : list Z) :
  Forall (fun i => In i (keys t)) l ->
  (is_complete_loop t l = Ok false
   /\ exists i tk, In i l /\ lookup t i = Some tk /\ gov tk = -1)
  \/ (is_complete_loop t l = Ok true
      /\ forall i tk, In i l -> lookup t i = Some tk -> gov tk <> -1).
Proof.
  induction 1 as [| i l Hi _ IH].
  - right. split; [reflexivity | intros i tk []].
  - apply keys_lookup in Hi. destruct Hi as [tk Htk].
    simpl. unfold idgovRel, getitem. rewrite Htk. simpl.
    destruct (Z.eqb_spec (gov tk) (-1)) as [Hg | Hg].
    + left. split; [reflexivity |]. exists i, tk. simpl. auto.
    + destruct IH as [[Hl (j & tj & Hin & Hlj & Hgj)] | [Hl Hall]].
      * left. split; [exact Hl |]. exists j, tj. simpl. auto.
      * right. split; [exact Hl |].
        intros j tj [<- | Hin] Hlj.
        -- rewrite Htk in Hlj. injection Hlj as <-. exact Hg.
        -- now apply Hall with j.
Qed.

(** C10: [is_complete] returns false exactly when some token of the tree
    has the governor reference Unattached, returns true otherwise, and
    returns true on the tree without tokens. *)
Theorem is_complete_spec :
  (forall t : Tree,
      (is_complete t = Ok false <->
       exists i tk, lookup t i = Some tk
                    /\ governor_ref (gov tk) = Unattached)
      /\ (is_complete t = Ok true <->
          ~ exists i tk, lookup t i = Some tk
                         /\ governor_ref (gov tk) = Unattached))
  /\ is_complete [] = Ok true.
Proof.
  split; [| reflexivity].
  intros t.
  assert (Hall : Forall (fun i => In i (keys t)) (keys t)).
  { apply Forall_forall. auto. }
  destruct (is_complete_loop_spec t (keys t) Hall)
    as [[Hl (i & tk & Hin & Hli & Hg)] | [Hl Hnone]];
    unfold is_complete; rewrite Hl.
  - assert (Hex : exists i tk, lookup t i = Some tk
                               /\ governor_ref (gov tk) = Unattached).
    { exists i, tk. split; [exact Hli |].
      now apply governor_ref_Unattached. }
    split; split; intros H; try exact Hex; try reflexivity;
      try discriminate H; contradiction.
  - assert (Hno : ~ exists i tk, lookup t i = Some tk
                                 /\ governor_ref (gov tk) = Unattached).
    { intros (i & tk & Hli & Hg). apply governor_ref_Unattached in Hg.
      apply (Hnone i tk); [| exact Hli | exact Hg].
      now apply lookup_Some_keys with tk. }
    split; split; intros H; try exact Hno; try reflexivity;
      try discriminate H; contradiction.
Qed.

(* ------------------------------------------------------------------ *)
(** ** Loops *)

(** A loop over [seq a n] whose body keeps an invariant returns, and the
    invariant holds of the final state. *)
Lemma for_each_seq_inv {S : Type} (I : nat -> S -> Prop)
    (body : nat -> S -> result S) (n a m : nat) (s : S) :
  m = (a + n)%nat ->
  I a s ->
  (forall i s, (a <= i < m)%nat -> I i s ->
     exists s', body i s = Ok s' /\ I (Datatypes.S i) s') ->
  exists s', for_each (seq a n) s body = Ok s' /\ I m s'.
Proof.
  revert a s. induction n as [| n IH]; intros a s -> Hs Hbody; simpl.
  - exists s. rewrite Nat.add_0_r. auto.
  - destruct (Hbody a s) as [s1 [Hb Hs1]]; [lia | exact Hs |].
    rewrite Hb. simpl.
    apply IH; [lia | exact Hs1 |].
    intros i s2 Hi. apply Hbody. lia.
Qed.

(** Two loops over the same list whose bodies keep a relation between
    the two states. *)
Lemma for_each_rel {X S1 S2 : Type} (R : S1 -> S2 -> Prop)
    (b1 : X -> S1 -> result S1) (b2 : X -> S2 -> result S2) (l : list X) :
  (forall x s1 s2 s1' s2', In x l -> R s1 s2 ->
     b1 x s1 = Ok s1' -> b2 x s2 = Ok s2' -> R s1' s2') ->
  forall s1 s2 r1 r2,
    R s1 s2 ->
    for_each l s1 b1 = Ok r1 -> for_each l s2 b2 = Ok r2 -> R r1 r2.
Proof.
  induction l as [| x l IH]; intros Hstep s1 s2 r1 r2 HR H1 H2; simpl in *.
  - injection H1 as <-. injection H2 as <-. exact HR.
  - inv_bind H1. inv_bind H2.
    apply (IH) with (s1 := a) (s2 := a0); auto.
    + intros y u1 u2 u1' u2' Hy. apply Hstep. now right.
    + apply (Hstep x s1 s2); auto.
Qed.

(* ------------------------------------------------------------------ *)
(** ** Segments partition their clause *)

Lemma append_last_spec (segments : list (list Z)) (x : Z) :
  segments <> [] ->
  exists segments',
    append_last segments x = Ok segments'
    /\ List.concat segments' = List.concat segments ++ [x]
    /\ List.length segments' = List.length segments
    /\ (Forall (fun s => s <> []) segments ->
        Forall (fun s => s <> []) segments').
Proof.
  induction segments as [| s rest IH]; intros Hne; [contradiction |].
  destruct rest as [| s' rest].
  - exists [s ++ [x]]. simpl. rewrite !app_nil_r.
    repeat split. intros _. constructor; [| constructor].
    now destruct s.
  - destruct IH as (r & Hr & Hcat & Hlen & Hall); [discriminate |].
    exists (s :: r).
    change (append_last (s :: s' :: rest) x)
      with (rest' <- append_last (s' :: rest) x ;; Ok (s :: rest')).
    rewrite Hr. simpl. split; [reflexivity |].
    split; [| split].
    + simpl in Hcat. rewrite Hcat. now rewrite <- !app_assoc.
    + simpl in Hlen. now rewrite Hlen.
    + intros Hf. inversion Hf; subst. constructor; auto.
Qed.

Lemma append_last_length (segments segments' : list (list Z)) (x : Z) :
  append_last segments x = Ok segments' ->
  List.length segments' = List.length segments.
Proof.
  intros H. destruct segments as [| s rest]; [discriminate H |].
  destruct (append_last_spec (s :: rest) x) as (r & Hr & _ & Hlen & _);
    [discriminate |].
  rewrite H in Hr. injection Hr as ->. exact Hlen.
Qed.

Lemma index_Ok (l : list Z) (i : nat) :
  (i < List.length l)%nat ->
  exists x, index l i = Ok x /\ nth_error l i = Some x /\ In x l.
Proof.
  intros Hi. unfold index.
  destruct (nth_error l i) as [x |] eqn:Hn.
  - exists x. repeat split. now apply nth_error_In with i.
  - apply nth_error_None in Hn. lia.
Qed.

Lemma firstn_succ_nth (l : list Z) (i : nat) (x : Z) :
  nth_error l i = Some x -> firstn (S i) l = firstn i l ++ [x].
Proof.
  revert i. induction l as [| y l IH]; intros [| i] H; simpl in *;
    try discriminate H.
  - now injection H as ->.
  - f_equal. now apply IH.
Qed.

Lemma is_syntactic_bigram_total (t : Tree) (a b : Z) :
  In a (keys t) -> In b (keys t) ->
  exists r, is_syntactic_bigram t a b = Ok r.
Proof.
  intros Ha Hb.
  apply keys_lookup in Ha. destruct Ha as [ta Hta].
  apply keys_lookup in Hb. destruct Hb as [tb Htb].
  unfold is_syntactic_bigram, idgovRel, getitem. rewrite Hta, Htb. simpl.
  destruct (gov ta =? b); [now exists true |].
  destruct (gov tb =? a); [now exists true | now exists false].
Qed.

(** The state of the segmenting loop after the ids before position [i]. *)
Definition partitions (clause : list Z) (i : nat)
    (segments : list (list Z)) : Prop :=
  List.concat segments = firstn i clause
  /\ segments <> []
  /\ Forall (fun s => s <> []) segments.

Lemma partitions_step (clause : list Z) (i : nat) (ci : Z)
    (segments : list (list Z)) (linked : bool) :
  nth_error clause i = Some ci ->
  partitions clause i segments ->
  exists segments',
    (if linked then append_last segments ci
     else Ok (segments ++ [[ci]])) = Ok segments'
    /\ partitions clause (S i) segments'.
Proof.
  intros Hn (Hcat & Hne & Hall).
  destruct linked.
  - destruct (append_last_spec segments ci Hne)
      as (r & Hr & Hrcat & Hlen & Hrall).
    exists r. split; [exact Hr |]. repeat split.
    + rewrite Hrcat, Hcat. symmetry. now apply firstn_succ_nth.
    + intros ->. destruct segments; [contradiction | discriminate Hlen].
    + auto.
  - exists (segments ++ [[ci]]). split; [reflexivity |]. repeat split.
    + rewrite concat_app, Hcat. simpl.
      symmetry. now apply firstn_succ_nth.
    + now destruct segments.
    + apply Forall_app. split; [exact Hall |].
      constructor; [discriminate | constructor].
Qed.

Lemma ngrams_partition (t : Tree) (clause : list Z) :
  clause <> [] ->
  Forall (fun i => In i (keys t)) clause ->
  (exists segments,
      syntactically_linked_ngrams_1 t clause = Ok segments
      /\ partitions clause (List.length clause) segments)
  /\ (exists segments,
         syntactically_linked_ngrams_2 t clause = Ok segments
         /\ partitions clause (List.length clause) segments).
Proof.
  intros Hne Hvalid.
  destruct clause as [| c0 rest]; [contradiction |].
  assert (Hstart : partitions (c0 :: rest) 1 [[c0]]).
  { repeat split; [discriminate |].
    constructor; [discriminate | constructor]. }
  assert (Hlen : (1 + (List.length (c0 :: rest) - 1)
                  = List.length (c0 :: rest))%nat) by (simpl; lia).
  rewrite Forall_forall in Hvalid.
  split.
  - unfold syntactically_linked_ngrams_1, range1.
    change (index (c0 :: rest) 0) with (Ok c0). cbn [bind].
    apply (for_each_seq_inv (partitions (c0 :: rest)));
      [now rewrite Hlen | exact Hstart |].
    intros i s Hi Hs.
    destruct (index_Ok (c0 :: rest) i) as (ci & Hci & Hnth & Hin); [lia |].
    destruct (index_Ok (c0 :: rest) (i - 1)) as (cp & Hcp & _ & Hinp);
      [lia |].
    rewrite Hci, Hcp. cbn [bind].
    destruct (is_syntactic_bigram_total t ci cp) as [b Hb]; auto.
    rewrite Hb. cbn [bind].
    now apply partitions_step.
  - unfold syntactically_linked_ngrams_2, range1.
    change (index (c0 :: rest) 0) with (Ok c0). cbn [bind].
    apply (for_each_seq_inv (partitions (c0 :: rest)));
      [now rewrite Hlen | exact Hstart |].
    intros i s Hi Hs.
    destruct (index_Ok (c0 :: rest) i) as (ci & Hci & Hnth & Hin); [lia |].
    destruct (index_Ok (c0 :: rest) (i - 1)) as (cp & Hcp & _ & Hinp);
      [lia |].
    rewrite Hci, Hcp. cbn [bind].
    destruct (is_syntactic_bigram_total t ci cp) as [b Hb]; auto.
    destruct (cp + 1 =? ci); [rewrite Hb |]; cbn [bind].
    + now apply partitions_step.
    + now apply (partitions_step (c0 :: rest) i ci s false).
Qed.

(** C1: on a non-empty clause of ids of the tree, both strategies return
    a list of non-empty segments whose concatenation is the clause. *)
Theorem ngrams_partition_law (t : Tree) (clause : list Z) :
  clause <> [] ->
  Forall (fun i => In i (keys t)) clause ->
  (exists segments,
      syntactically_linked_ngrams_1 t clause = Ok segments
      /\ List.concat segments = clause
      /\ Forall (fun s => s <> []) segments)
  /\ (exists segments,
         syntactically_linked_ngrams_2 t clause = Ok segments
         /\ List.concat segments = clause
         /\ Forall (fun s => s <> []) segments).
Proof.
  intros Hne Hvalid.
  destruct (ngrams_partition t clause Hne Hvalid)
    as [(s1 & H1 & Hc1 & _ & Hf1) (s2 & H2 & Hc2 & _ & Hf2)].
  rewrite firstn_all in Hc1, Hc2.
  split; [exists s1 | exists s2]; auto.
Qed.

Lemma ngrams_partition_law_witness :
  (exists segments,
      syntactically_linked_ngrams_1 tree_example [1; 3; 5; 6; 8]
      = Ok segments
      /\ List.concat segments = [1; 3; 5; 6; 8]
      /\ Forall (fun s => s <> []) segments)
  /\ (exists segments,
         syntactically_linked_ngrams_2 tree_example [1; 3; 5; 6; 8]
         = Ok segments
         /\ List.concat segments = [1; 3; 5; 6; 8]
         /\ Forall (fun s => s <> []) segments).
Proof.
  apply ngrams_partition_law.
  - discriminate.
  - repeat constructor; simpl; tauto.
Defined.

(* ------------------------------------------------------------------ *)
(** ** Strategy 2 cuts at least as often as strategy 1 *)

Lemma ngrams_lengths (t : Tree) (clause : list Z)
    (s1 s2 : list (list Z)) :
  syntactically_linked_ngrams_1 t clause = Ok s1 ->
  syntactically_linked_ngrams_2 t clause = Ok s2 ->
  (List.length s1 <= List.length s2)%nat.
Proof.
  unfold syntactically_linked_ngrams_1, syntactically_linked_ngrams_2.
  intros H1 H2. inv_bind H1. inv_bind H2.
  rewrite Ha in Ha0. injection Ha0 as <-.
  revert H1 H2.
  apply (for_each_rel
           (fun u1 u2 => (List.length u1 <= List.length u2)%nat));
    [| simpl; lia].
  clear s1 s2. intros i u1 u2 u1' u2' _ Hle Hb1 Hb2.
  apply bind_Ok in Hb1. destruct Hb1 as (ci & Hci & Hb1).
  apply bind_Ok in Hb1. destruct Hb1 as (cp & Hcp & Hb1).
  apply bind_Ok in Hb1. destruct Hb1 as (l1 & Hl1 & Hb1).
  rewrite Hcp, Hci in Hb2. cbn [bind] in Hb2.
  apply bind_Ok in Hb2. destruct Hb2 as (l2 & Hl2 & Hb2).
  assert (Himp : l2 = true -> l1 = true).
  { intros ->. destruct (cp + 1 =? ci); [| discriminate Hl2].
    rewrite Hl1 in Hl2. now injection Hl2. }
  destruct l1.
  - apply append_last_length in Hb1. rewrite Hb1.
    destruct l2.
    + apply append_last_length in Hb2. now rewrite Hb2.
    + injection Hb2 as <-. rewrite length_app. simpl. lia.
  - destruct l2; [specialize (Himp eq_refl); discriminate Himp |].
    injection Hb1 as <-. injection Hb2 as <-.
    rewrite !length_app. simpl. lia.
Qed.

(** C2: whenever both strategies return, strategy 2 returns at least as
    many segments as strategy 1; on a non-empty clause of ids of the tree
    both do return. *)
Theorem ngrams_2_count_ge_ngrams_1 (t : Tree) (clause : list Z) :
  (forall s1 s2,
      syntactically_linked_ngrams_1 t clause = Ok s1 ->
      syntactically_linked_ngrams_2 t clause = Ok s2 ->
      (List.length s2 >= List.length s1)%nat)
  /\ (clause <> [] ->
      Forall (fun i => In i (keys t)) clause ->
      exists s1 s2,
        syntactically_linked_ngrams_1 t clause = Ok s1
        /\ syntactically_linked_ngrams_2 t clause = Ok s2
        /\ (List.length s2 >= List.length s1)%nat).
Proof.
  split.
  - intros s1 s2 H1 H2. now apply ngrams_lengths with t clause.
  - intros Hne Hvalid.
    destruct (ngrams_partition t clause Hne Hvalid)
      as [(s1 & H1 & _) (s2 & H2 & _)].
    exists s1, s2. repeat split; auto.
    now apply ngrams_lengths with t clause.
Qed.

Lemma ngrams_2_count_ge_ngrams_1_witness :
  exists s1 s2,
    syntactically_linked_ngrams_1 tree_example [1; 3; 5; 6; 8] = Ok s1
    /\ syntactically_linked_ngrams_2 tree_example [1; 3; 5; 6; 8] = Ok s2
    /\ (List.length s2 >= List.length s1)%nat.
Proof.
  apply (proj2 (ngrams_2_count_ge_ngrams_1 tree_example [1; 3; 5; 6; 8])).
  - discriminate.
  - repeat constructor; simpl; tauto.
Defined.

(* ------------------------------------------------------------------ *)
(** ** [addkids] keeps the tokens and derives the child sets *)

Lemma keys_addkids (t : Tree) : keys (addkids t) = keys t.
Proof.
  unfold keys, addkids. rewrite map_map. simpl. reflexivity.
Qed.

Lemma lookup_map_snd (f : Z -> Token -> Token) (t : Tree) (i : Z) :
  lookup (map (fun e => (fst e, f (fst e) (snd e))) t) i
  = option_map (f i) (lookup t i).
Proof.
  induction t as [| [j tj] t IH]; simpl; [reflexivity |].
  destruct (Z.eqb_spec j i) as [-> | Hne]; [reflexivity | exact IH].
Qed.

Lemma lookup_addkids (t : Tree) (i : Z) :
  lookup (addkids t) i
  = option_map (set_kids (children_of t i)) (lookup t i).
Proof.
  unfold addkids.
  apply (lookup_map_snd (fun j => set_kids (children_of t j))).
Qed.

(* ------------------------------------------------------------------ *)
(** ** A tree without anchors *)

Lemma keep_anchors_none (t : Tree) (l : list Z) :
  (forall i, In i l ->
     exists v, is_finite_verb_or_sconj t i = Ok v /\ truthy v = false) ->
  keep_anchors t l = Ok [].
Proof.
  induction l as [| i l IH]; intros H; simpl; [reflexivity |].
  destruct (H i) as (v & Hv & Hf); [now left |].
  rewrite Hv. simpl. rewrite IH; [| intros j Hj; apply H; now right].
  simpl. now rewrite Hf.
Qed.

(** C8: when the classifier gives a negative decision for every token of
    the tree (child sets derived), [clause_segmentation] returns the
    empty list; no recursion is entered, so any fuel does. *)
Theorem clause_segmentation_no_anchor (fuel : nat) (t : Tree) :
  (forall i, In i (keys t) ->
     exists v, is_finite_verb_or_sconj (addkids t) i = Ok v
               /\ truthy v = false) ->
  clause_segmentation fuel t = Ok [].
Proof.
  intros H. unfold clause_segmentation.
  rewrite keys_addkids, keep_anchors_none; [reflexivity | exact H].
Qed.

Definition tree_no_anchor : Tree :=
  [ (1, tok "ADJ"  "AAFS1----1A----" 2 "mod");
    (2, tok "NOUN" "NNFS1-----A----" 0 "root") ].

Lemma clause_segmentation_no_anchor_witness :
  clause_segmentation 0 tree_no_anchor = Ok [].
Proof.
  apply clause_segmentation_no_anchor.
  intros i Hi. simpl in Hi.
  destruct Hi as [<- | [<- | []]]; exists None; split; reflexivity.
Defined.

(* ------------------------------------------------------------------ *)
(** ** Forests: relations in which a node has one parent *)

(** The last edge of a path. *)
Lemma clos_trans_last (edge : Z -> Z -> Prop) (a d : Z) :
  clos_trans Z edge a d ->
  exists p, edge p d /\ (p = a \/ clos_trans Z edge a p).
Proof.
  intros H. apply clos_trans_tn1 in H.
  inversion H as [He | y ? He Hay]; subst.
  - exists a. auto.
  - exists y. split; [exact He |]. right. now apply clos_tn1_trans.
Qed.

(** The first edge of a path. *)
Lemma clos_trans_first (edge : Z -> Z -> Prop) (a d : Z) :
  clos_trans Z edge a d ->
  exists c, edge a c /\ (c = d \/ clos_trans Z edge c d).
Proof.
  intros H. apply clos_trans_t1n in H.
  inversion H as [? He | y ? He Hyd]; subst.
  - exists d. auto.
  - exists y. split; [exact He |]. right. now apply clos_t1n_trans.
Qed.

Section Forest.
Variable edge : Z -> Z -> Prop.
Hypothesis one_parent : forall p p' c, edge p c -> edge p' c -> p = p'.

Lemma path_via_parent (p a d : Z) :
  edge p d -> clos_trans Z edge a d -> a = p \/ clos_trans Z edge a p.
Proof.
  intros Hp Had. apply clos_trans_tn1 in Had.
  inversion Had as [He | y ? He Hay]; subst.
  - left. now apply one_parent with d.
  - right. assert (y = p) as -> by now apply one_parent with d.
    now apply clos_tn1_trans.
Qed.

Lemma common_descendant (a b d : Z) :
  clos_trans Z edge a d -> clos_trans Z edge b d ->
  a = b \/ clos_trans Z edge a b \/ clos_trans Z edge b a.
Proof.
  intros Had. apply clos_trans_tn1 in Had.
  induction Had as [d He | y d He Hay IH]; intros Hbd.
  - destruct (path_via_parent a b d He Hbd) as [-> | Hba]; auto.
  - destruct (path_via_parent y b d He Hbd) as [-> | Hby].
    + right. left. now apply clos_tn1_trans.
    + now apply IH.
Qed.
End Forest.

(* ------------------------------------------------------------------ *)
(** ** Governors, descendants and well-formed trees *)

(** [p] is the governor of token [c]. *)
Definition governs (t : Tree) (p c : Z) : Prop :=
  exists tk, lookup t c = Some tk /\ governor_ref (gov tk) = Governor p.

(** [d] is a transitive child of [r]. *)
Definition descendant (t : Tree) : Z -> Z -> Prop :=
  clos_trans Z (governs t).

(** A governor edge into a token that is not an anchor. *)
Definition clause_edge (t : Tree) (p c : Z) : Prop :=
  governs t p c /\ is_anchor t c = false.

(** [d] is a descendant of [r], and neither [d] nor a token between [r]
    and [d] on the governor path is an anchor. *)
Definition unblocked (t : Tree) : Z -> Z -> Prop :=
  clos_trans Z (clause_edge t).

(** A dict has each key once; the governor references have no cycle.
    That a token has one governor reference is in the type of [gov]. *)
Definition wf_tree (t : Tree) : Prop :=
  NoDup (keys t) /\ forall i, ~ descendant t i i.

(** Every governor reference is Root or a token of the tree. *)
Definition resolved (t : Tree) : Prop :=
  forall i tk, lookup t i = Some tk -> gov tk = 0 \/ In (gov tk) (keys t).

(** The stored child sets are the ones the governor references give. *)
Definition kids_derived (t : Tree) : Prop :=
  forall p tk, lookup t p = Some tk ->
    NoDup (kids tk)
    /\ forall c, In c (kids tk) <-> governs t p c.

Lemma governs_one_parent (t : Tree) (p p' c : Z) :
  governs t p c -> governs t p' c -> p = p'.
Proof.
  intros (tk & Hl & Hg) (tk' & Hl' & Hg').
  rewrite Hl in Hl'. injection Hl' as <-.
  rewrite Hg in Hg'. now injection Hg'.
Qed.

Lemma clause_edge_one_parent (t : Tree) (p p' c : Z) :
  clause_edge t p c -> clause_edge t p' c -> p = p'.
Proof.
  intros [H _] [H' _]. now apply governs_one_parent with t c.
Qed.

Lemma unblocked_descendant (t : Tree) (r d : Z) :
  unblocked t r d -> descendant t r d.
Proof.
  induction 1 as [x y [Hg _] | x y z _ IH1 _ IH2].
  - now apply t_step.
  - now apply t_trans with y.
Qed.

Lemma unblocked_not_anchor (t : Tree) (r d : Z) :
  unblocked t r d -> is_anchor t d = false.
Proof.
  intros H. apply clos_trans_last in H.
  now destruct H as (p & [_ Hna] & _).
Qed.

Lemma governs_in_keys (t : Tree) (p c : Z) :
  governs t p c -> In c (keys t).
Proof.
  intros (tk & Hl & _). now apply lookup_Some_keys with tk.
Qed.

Lemma descendant_in_keys (t : Tree) (r d : Z) :
  descendant t r d -> In d (keys t).
Proof.
  intros H. apply clos_trans_last in H.
  destruct H as (p & Hg & _). now apply governs_in_keys with p.
Qed.

(** An executable check for cycles: the governor chain from [i] leaves
    the tokens within [fuel] steps. *)
Fixpoint climbs (fuel : nat) (t : Tree) (i : Z) : bool :=
  match fuel with
  | O => false
  | S fuel' =>
      match lookup t i with
      | None => true
      | Some tk =>
          match governor_ref (gov tk) with
          | Governor g => climbs fuel' t g
          | _ => true
          end
      end
  end.

Definition acyclicb (t : Tree) : bool :=
  forallb (climbs (List.length t) t) (keys t).

Fixpoint nodupb (l : list Z) : bool :=
  match l with
  | [] => true
  | x :: l' => negb (existsb (Z.eqb x) l') && nodupb l'
  end.

Definition wf_treeb (t : Tree) : bool := nodupb (keys t) && acyclicb t.

Lemma nodupb_NoDup (l : list Z) : nodupb l = true -> NoDup l.
Proof.
  induction l as [| x l IH]; simpl; intros H; constructor.
  - apply andb_prop in H. destruct H as [H _].
    intros Hin. apply negb_true_iff in H.
    assert (Hex : existsb (Z.eqb x) l = true).
    { apply existsb_exists. exists x. split; [exact Hin | apply Z.eqb_refl]. }
    congruence.
  - apply andb_prop in H. now apply IH.
Qed.

Lemma cycle_never_climbs (t : Tree) (fuel : nat) :
  forall i, descendant t i i -> climbs fuel t i = false.
Proof.
  induction fuel as [| fuel IH]; intros i Hc; simpl; [reflexivity |].
  assert (Hp : exists p, governs t p i /\ descendant t p p).
  { destruct (clos_trans_last _ _ _ Hc) as (p & Hg & [-> | Hip]).
    - exists i. auto.
    - exists p. split; [exact Hg |].
      apply t_trans with i; [now apply t_step | exact Hip]. }
  destruct Hp as (p & (tk & Hl & Hg) & Hpp).
  rewrite Hl, Hg. now apply IH.
Qed.

Lemma wf_treeb_sound (t : Tree) : wf_treeb t = true -> wf_tree t.
Proof.
  unfold wf_treeb, acyclicb. intros H. apply andb_prop in H.
  destruct H as [Hnd Hac]. split; [now apply nodupb_NoDup |].
  intros i Hc.
  rewrite forallb_forall in Hac.
  pose proof (cycle_never_climbs t (List.length t) i Hc) as Hnever.
  rewrite Hac in Hnever; [discriminate Hnever |].
  now apply descendant_in_keys with i.
Qed.

Definition resolvedb (t : Tree) : bool :=
  forallb (fun e => (gov (snd e) =? 0)
                    || existsb (Z.eqb (gov (snd e))) (keys t)) t.

Lemma resolvedb_sound (t : Tree) : resolvedb t = true -> resolved t.
Proof.
  unfold resolvedb. intros H i tk Hl.
  rewrite forallb_forall in H.
  specialize (H (i, tk) (lookup_Some_In t i tk Hl)). simpl in H.
  apply orb_prop in H. destruct H as [H | H].
  - left. now apply Z.eqb_eq.
  - right. apply existsb_exists in H. destruct H as (x & Hx & Heq).
    apply Z.eqb_eq in Heq. now subst.
Qed.

(* ------------------------------------------------------------------ *)
(** ** The tree after [addkids] *)

Lemma governs_addkids (t : Tree) (p c : Z) :
  governs (addkids t) p c <-> governs t p c.
Proof.
  unfold governs. split.
  - intros (tk & Hl & Hg). rewrite lookup_addkids in Hl.
    destruct (lookup t c) as [tk0 |]; [| discriminate Hl].
    injection Hl as <-. now exists tk0.
  - intros (tk & Hl & Hg).
    exists (set_kids (children_of t c) tk).
    rewrite lookup_addkids, Hl. auto.
Qed.

Lemma descendant_addkids (t : Tree) (r d : Z) :
  descendant (addkids t) r d <-> descendant t r d.
Proof.
  split; induction 1 as [x y Hg | x y z _ IH1 _ IH2].
  - apply t_step. now apply governs_addkids.
  - now apply t_trans with y.
  - apply t_step. now apply governs_addkids.
  - now apply t_trans with y.
Qed.

Lemma NoDup_map_fst_filter (f : Z * Token -> bool) (t : Tree) :
  NoDup (map fst t) -> NoDup (map fst (filter f t)).
Proof.
  induction t as [| e t IH]; simpl; intros H; [constructor |].
  inversion H as [| ? ? Hnotin Hnd]; subst.
  destruct (f e); simpl; [| now apply IH].
  constructor; [| now apply IH].
  intros Hin. apply Hnotin.
  apply in_map_iff in Hin. destruct Hin as (e' & He' & Hin).
  apply filter_In in Hin. apply in_map_iff. exists e'. tauto.
Qed.

Lemma is_child_of_true (i : Z) (e : Z * Token) :
  is_child_of i e = true <-> governor_ref (gov (snd e)) = Governor i.
Proof.
  unfold is_child_of.
  destruct (governor_ref (gov (snd e))) as [| g |];
    try (split; intros H; discriminate H).
  split.
  - intros H. apply Z.eqb_eq in H. now subst.
  - intros H. injection H as ->. apply Z.eqb_refl.
Qed.

Lemma In_children_of (t : Tree) (p c : Z) :
  NoDup (keys t) -> (In c (children_of t p) <-> governs t p c).
Proof.
  intros Hnd. unfold children_of, governs. split.
  - intros Hin. apply in_map_iff in Hin.
    destruct Hin as ([c' tk] & Hc & Hin). simpl in Hc. subst c'.
    apply filter_In in Hin. destruct Hin as [Hin Hch].
    exists tk. split; [now apply In_lookup_NoDup |].
    now apply is_child_of_true in Hch.
  - intros (tk & Hl & Hg). apply in_map_iff.
    exists (c, tk). split; [reflexivity |].
    apply filter_In. split; [now apply lookup_Some_In |].
    now apply is_child_of_true.
Qed.

Lemma kids_derived_addkids (t : Tree) :
  NoDup (keys t) -> kids_derived (addkids t).
Proof.
  intros Hnd p tk Hl. rewrite lookup_addkids in Hl.
  destruct (lookup t p) as [tk0 |]; [| discriminate Hl].
  injection Hl as <-. simpl. split.
  - now apply NoDup_map_fst_filter.
  - intros c. rewrite governs_addkids. now apply In_children_of.
Qed.

Lemma wf_tree_addkids (t : Tree) : wf_tree t -> wf_tree (addkids t).
Proof.
  intros [Hnd Hac]. split.
  - now rewrite keys_addkids.
  - intros i Hc. apply (Hac i). now apply descendant_addkids.
Qed.

Lemma resolved_addkids (t : Tree) : resolved t -> resolved (addkids t).
Proof.
  intros Hr i tk Hl. rewrite lookup_addkids in Hl.
  destruct (lookup t i) as [tk0 |] eqn:Hl0; [| discriminate Hl].
  injection Hl as <-. simpl. rewrite keys_addkids. now apply Hr with i.
Qed.

(* ------------------------------------------------------------------ *)
(** ** What the clause-boundary finder collects *)

Definition not_anchor (t : Tree) (c : Z) : bool := negb (is_anchor t c).

Lemma drop_anchors_filter (t : Tree) (l r : list Z) :
  drop_anchors t l = Ok r -> r = filter (not_anchor t) l.
Proof.
  revert r. induction l as [| c l IH]; simpl; intros r H.
  - now injection H as <-.
  - inv_bind H. inv_bind H. injection H as <-.
    unfold not_anchor at 1, is_anchor. rewrite Ha.
    rewrite (IH a0 Ha0). now destruct (truthy a).
Qed.

Lemma keep_anchors_filter (t : Tree) (l r : list Z) :
  keep_anchors t l = Ok r -> r = filter (is_anchor t) l.
Proof.
  revert r. induction l as [| c l IH]; simpl; intros r H.
  - now injection H as <-.
  - inv_bind H. inv_bind H. injection H as <-.
    unfold is_anchor at 1. rewrite Ha.
    rewrite (IH a0 Ha0). now destruct (truthy a).
Qed.

(** The loop of the finder over the kept children [cs]: each child [c]
    contributes the ids collected below it, filtered once more. *)
Lemma extend_loop (fuel : nat) (t : Tree) (cs : list Z) :
  forall descendants ds,
    for_each cs descendants (fun c descendants =>
      x <- get_descendants_until_Fin_Verb fuel t c ;;
      match x with
      | [] => Ok descendants
      | _ => x <- drop_anchors t x ;; Ok (descendants ++ x)
      end) = Ok ds ->
    exists xs,
      Forall2 (fun c x =>
                 exists x0, get_descendants_until_Fin_Verb fuel t c = Ok x0
                            /\ x = filter (not_anchor t) x0) cs xs
      /\ ds = descendants ++ List.concat xs.
Proof.
  induction cs as [| c cs IH]; intros descendants ds H; simpl in H.
  - injection H as <-. exists []. split; [constructor |].
    simpl. now rewrite app_nil_r.
  - inv_bind H. inv_bind Ha.
    assert (Hstep : a = descendants ++ filter (not_anchor t) a0).
    { destruct a0 as [| z a0].
      - injection Ha as <-. simpl. now rewrite app_nil_r.
      - inv_bind Ha. injection Ha as <-.
        now rewrite (drop_anchors_filter t _ _ Ha1). }
    destruct (IH a ds H) as (xs & Hxs & Hds).
    exists (filter (not_anchor t) a0 :: xs). split.
    + constructor; [| exact Hxs]. now exists a0.
    + rewrite Hds, Hstep. simpl. now rewrite app_assoc.
Qed.

(** One frame of the finder. *)
Lemma finder_frame (fuel : nat) (t : Tree) (r : Z) (ds : list Z) :
  get_descendants_until_Fin_Verb (S fuel) t r = Ok ds ->
  exists tk xs,
    lookup t r = Some tk
    /\ Forall2 (fun c x =>
                  exists x0, get_descendants_until_Fin_Verb fuel t c = Ok x0
                             /\ x = filter (not_anchor t) x0)
               (filter (not_anchor t) (kids tk)) xs
    /\ ds = filter (not_anchor t) (kids tk) ++ List.concat xs.
Proof.
  intros H. simpl in H. inv_bind H. inv_bind H.
  unfold get_kids in Ha. inv_bind Ha. injection Ha as <-.
  apply getitem_Ok in Ha1.
  apply drop_anchors_filter in Ha0. subst a0.
  exists a1.
  destruct (filter (not_anchor t) (kids a1)) as [| c cs] eqn:Hch.
  - injection H as <-. exists []. repeat split; auto.
  - apply extend_loop in H. destruct H as (xs & Hxs & Hds).
    exists xs. auto.
Qed.

Lemma Forall2_In_l {A B : Type} (R : A -> B -> Prop) (l : list A)
    (l' : list B) (a : A) :
  Forall2 R l l' -> In a l -> exists b, In b l' /\ R a b.
Proof.
  induction 1 as [| x y l l' Hxy _ IH]; intros Hin; [contradiction |].
  destruct Hin as [<- | Hin].
  - exists y. simpl. auto.
  - destruct (IH Hin) as (b & Hb & HR). exists b. simpl. auto.
Qed.

Lemma Forall2_In_r {A B : Type} (R : A -> B -> Prop) (l : list A)
    (l' : list B) (b : B) :
  Forall2 R l l' -> In b l' -> exists a, In a l /\ R a b.
Proof.
  induction 1 as [| x y l l' Hxy _ IH]; intros Hin; [contradiction |].
  destruct Hin as [<- | Hin].
  - exists x. simpl. auto.
  - destruct (IH Hin) as (a & Ha & HR). exists a. simpl. auto.
Qed.

Lemma NoDup_concat_Forall2 (R : Z -> list Z -> Prop) (cs : list Z)
    (xs : list (list Z)) :
  Forall2 R cs xs ->
  NoDup cs ->
  (forall c x, In c cs -> R c x -> NoDup x) ->
  (forall c c' x x' d, In c cs -> In c' cs -> c <> c' ->
     R c x -> R c' x' -> In d x -> ~ In d x') ->
  NoDup (List.concat xs).
Proof.
  induction 1 as [| c x cs xs Hcx HF IH]; intros Hnd Heach Hdisj; simpl.
  - constructor.
  - inversion Hnd as [| ? ? Hnotin Hnd']; subst.
    apply NoDup_app.
    + apply (Heach c); simpl; auto.
    + apply IH; [exact Hnd' | |].
      * intros c' x' Hc'. apply Heach. now right.
      * intros c1 c2 x1 x2 d H1 H2. apply Hdisj; now right.
    + intros d Hd Hd'. apply in_concat in Hd'.
      destruct Hd' as (x' & Hx' & Hdx').
      destruct (Forall2_In_r _ _ _ _ HF Hx') as (c' & Hc' & HR').
      apply (Hdisj c c' x x' d); simpl; auto.
      intros ->. contradiction.
Qed.

Section Finder.
Variable t : Tree.
Hypothesis Hkids : kids_derived t.

Lemma kept_child (r c : Z) (tk : Token) :
  lookup t r = Some tk ->
  (In c (filter (not_anchor t) (kids tk)) <-> clause_edge t r c).
Proof.
  intros Hl. destruct (Hkids r tk Hl) as [_ Hk].
  rewrite filter_In, Hk. unfold clause_edge, not_anchor.
  now rewrite negb_true_iff.
Qed.

(** The finder collects exactly the unblocked descendants. *)
Lemma finder_collects (fuel : nat) :
  forall r ds,
    get_descendants_until_Fin_Verb fuel t r = Ok ds ->
    forall d, In d ds <-> unblocked t r d.
Proof.
  induction fuel as [| fuel IH]; intros r ds H d; [discriminate H |].
  apply finder_frame in H. destruct H as (tk & xs & Hl & HF & ->).
  split.
  - intros Hin. apply in_app_or in Hin. destruct Hin as [Hin | Hin].
    + apply t_step. now apply (kept_child r d tk).
    + apply in_concat in Hin. destruct Hin as (x & Hx & Hdx).
      destruct (Forall2_In_r _ _ _ _ HF Hx) as (c & Hc & x0 & Hx0 & ->).
      apply filter_In in Hdx. destruct Hdx as [Hdx _].
      apply t_trans with c.
      * apply t_step. now apply (kept_child r c tk).
      * now apply (IH c x0).
  - intros Hu. apply in_or_app.
    destruct (clos_trans_first _ _ _ Hu) as (c & He & [-> | Hcd]).
    + left. now apply (kept_child r d tk).
    + right. apply (kept_child r c tk Hl) in He.
      destruct (Forall2_In_l _ _ _ _ HF He) as (x & Hx & x0 & Hx0 & ->).
      apply in_concat. exists (filter (not_anchor t) x0).
      split; [exact Hx |]. apply filter_In. split.
      * now apply (IH c x0).
      * unfold not_anchor.
        now rewrite (unblocked_not_anchor t c d Hcd).
Qed.

Hypothesis Hacyclic : forall i, ~ descendant t i i.

Lemma sibling_subtrees_apart (r c c' d : Z) :
  governs t r c -> governs t r c' -> c <> c' ->
  descendant t c d -> ~ descendant t c' d.
Proof.
  intros Hc Hc' Hne Hcd Hc'd.
  assert (Hup : forall a b, governs t r a -> governs t r b ->
                  descendant t a b -> False).
  { intros a b Ha Hb Hab.
    destruct (path_via_parent (governs t) (governs_one_parent t)
                r a b Hb Hab) as [-> | Har].
    - apply (Hacyclic r). now apply t_step.
    - apply (Hacyclic r). apply t_trans with a; [now apply t_step | exact Har]. }
  destruct (common_descendant (governs t) (governs_one_parent t)
              c c' d Hcd Hc'd) as [Heq | [H | H]].
  - contradiction.
  - now apply (Hup c c').
  - now apply (Hup c' c).
Qed.

(** On a well-formed tree no id is collected twice. *)
Lemma finder_NoDup (fuel : nat) :
  forall r ds,
    get_descendants_until_Fin_Verb fuel t r = Ok ds -> NoDup ds.
Proof.
  induction fuel as [| fuel IH]; intros r ds H; [discriminate H |].
  apply finder_frame in H. destruct H as (tk & xs & Hl & HF & ->).
  destruct (Hkids r tk Hl) as [Hnd Hk].
  assert (Hch : forall c, In c (filter (not_anchor t) (kids tk)) ->
                          governs t r c).
  { intros c Hc. apply filter_In in Hc. now apply Hk. }
  assert (Hbelow : forall c x d,
             (exists x0, get_descendants_until_Fin_Verb fuel t c = Ok x0
                         /\ x = filter (not_anchor t) x0) ->
             In d x -> descendant t c d).
  { intros c x d (x0 & Hx0 & ->) Hd. apply filter_In in Hd.
    apply unblocked_descendant. now apply (finder_collects fuel c x0). }
  apply NoDup_app.
  - now apply NoDup_filter.
  - apply (NoDup_concat_Forall2 _ _ _ HF).
    + now apply NoDup_filter.
    + intros c x _ (x0 & Hx0 & ->). apply NoDup_filter.
      now apply (IH c).
    + intros c c' x x' d Hc Hc' Hne HR HR' Hd Hd'.
      apply (sibling_subtrees_apart r c c' d); auto.
      * now apply (Hbelow c x).
      * now apply (Hbelow c' x').
  - intros d Hd Hd'. apply in_concat in Hd'.
    destruct Hd' as (x & Hx & Hdx).
    destruct (Forall2_In_r _ _ _ _ HF Hx) as (c & Hc & HR).
    pose proof (Hbelow c x d HR Hdx) as Hcd.
    apply Hch in Hd. apply Hch in Hc.
    destruct (path_via_parent (governs t) (governs_one_parent t)
                r c d Hd Hcd) as [-> | Hcr].
    + apply (Hacyclic r). now apply t_step.
    + apply (Hacyclic r).
      apply t_trans with c; [now apply t_step | exact Hcr].
Qed.

Lemma finder_excludes_root (fuel : nat) (r : Z) (ds : list Z) :
  get_descendants_until_Fin_Verb fuel t r = Ok ds -> ~ In r ds.
Proof.
  intros H Hin. apply (Hacyclic r).
  apply unblocked_descendant. now apply (finder_collects fuel r ds).
Qed.
End Finder.

(* ------------------------------------------------------------------ *)
(** ** Sorting *)

Lemma insert_sorted_perm (x : Z) (l : list Z) :
  Permutation (insert_sorted x l) (x :: l).
Proof.
  induction l as [| y l IH]; simpl; [apply Permutation_refl |].
  destruct (x <=? y); [apply Permutation_refl |].
  apply perm_trans with (y :: x :: l); [| apply perm_swap].
  now apply perm_skip.
Qed.

Lemma sorted_perm (l : list Z) : Permutation (sorted l) l.
Proof.
  induction l as [| x l IH]; simpl; [constructor |].
  apply perm_trans with (x :: sorted l).
  - apply insert_sorted_perm.
  - now apply perm_skip.
Qed.

Lemma sorted_In (l : list Z) (x : Z) : In x (sorted l) <-> In x l.
Proof.
  split; apply Permutation_in;
    [apply sorted_perm | apply Permutation_sym, sorted_perm].
Qed.

Lemma insert_sorted_ascending (x : Z) (l : list Z) :
  StronglySorted Z.le l -> StronglySorted Z.le (insert_sorted x l).
Proof.
  induction 1 as [| y l Hs IH Hall]; simpl.
  - constructor; constructor.
  - destruct (Z.leb_spec x y) as [Hle | Hgt].
    + constructor; [now constructor |].
      constructor; [exact Hle |].
      apply Forall_impl with (P := Z.le y); [intros z; lia | exact Hall].
    + constructor; [exact IH |].
      apply Forall_forall. intros z Hz.
      apply (Permutation_in _ (insert_sorted_perm x l)) in Hz.
      destruct Hz as [<- | Hz]; [lia |].
      rewrite Forall_forall in Hall. now apply Hall.
Qed.

Lemma sorted_ascending (l : list Z) : StronglySorted Z.le (sorted l).
Proof.
  induction l as [| x l IH]; simpl; [constructor |].
  now apply insert_sorted_ascending.
Qed.

Lemma ascending_strict (l : list Z) :
  NoDup l -> StronglySorted Z.le l -> StronglySorted Z.lt l.
Proof.
  induction 2 as [| x l Hs IH Hall]; [constructor |].
  inversion H as [| ? ? Hnotin Hnd]; subst.
  constructor; [now apply IH |].
  rewrite Forall_forall in *. intros y Hy.
  specialize (Hall y Hy).
  assert (x <> y) by (intros ->; contradiction). lia.
Qed.

Lemma strict_NoDup (l : list Z) : StronglySorted Z.lt l -> NoDup l.
Proof.
  induction 1 as [| x l _ IH Hall]; constructor; [| exact IH].
  intros Hin. rewrite Forall_forall in Hall.
  specialize (Hall x Hin). lia.
Qed.

Lemma sorted_strict (l : list Z) :
  NoDup l -> StronglySorted Z.lt (sorted l).
Proof.
  intros Hnd. apply ascending_strict; [| apply sorted_ascending].
  apply Permutation_NoDup with l; [| exact Hnd].
  apply Permutation_sym, sorted_perm.
Qed.

(* ------------------------------------------------------------------ *)
(** ** The functions return on a tree whose references resolve *)

(** No subscript of the classifiers can miss: every governor id other
    than [0] and every stored child is a token of the tree. *)
Definition closed_tree (t : Tree) : Prop :=
  forall i tk, lookup t i = Some tk ->
    (gov tk = 0 \/ In (gov tk) (keys t))
    /\ Forall (fun k => In k (keys t)) (kids tk).

Lemma closed_tree_addkids (t : Tree) :
  resolved t -> closed_tree (addkids t).
Proof.
  intros Hr i tk Hl. split.
  - now apply (resolved_addkids t Hr i tk).
  - rewrite lookup_addkids in Hl.
    destruct (lookup t i) as [tk0 |]; [| discriminate Hl].
    injection Hl as <-. simpl. apply Forall_forall. intros k Hk.
    rewrite keys_addkids. unfold children_of in Hk.
    apply in_map_iff in Hk. destruct Hk as (e & <- & He).
    apply filter_In in He. unfold keys. apply in_map. tauto.
Qed.

Lemma any_kid_total (p : Z -> result bool) (ks : list Z) :
  (forall k, In k ks -> exists b, p k = Ok b) ->
  exists b, any_kid p ks = Ok b.
Proof.
  induction ks as [| k ks IH]; intros H; simpl; [now exists false |].
  destruct (H k) as [b Hb]; [now left |]. rewrite Hb. simpl.
  destruct b; [now exists true |].
  apply IH. intros k' Hk'. apply H. now right.
Qed.

Section Closed.
Variable t : Tree.
Hypothesis Hclosed : closed_tree t.

Lemma gov_token (tk : Token) :
  gov tk = 0 \/ In (gov tk) (keys t) ->
  (gov tk =? 0) = true \/ exists g, getitem t (gov tk) = Ok g.
Proof.
  intros [H0 | Hin].
  - left. now apply Z.eqb_eq.
  - right. apply keys_lookup in Hin. destruct Hin as [g Hg].
    exists g. now apply getitem_Ok.
Qed.

Lemma is_finite_verb_total (i : Z) :
  In i (keys t) -> exists b, is_finite_verb t i = Ok b.
Proof.
  intros Hi. apply keys_lookup in Hi. destruct Hi as [tk Hl].
  destruct (Hclosed i tk Hl) as [Hgov Hks].
  unfold is_finite_verb, idgovRel, getitem. rewrite Hl. cbn [bind fst].
  destruct (str_in _ _); [now exists true |].
  destruct (String.eqb (prefix2 (xpos tk)) "Vp").
  - destruct (gov_token tk Hgov) as [H0 | [g Hg]].
    + rewrite H0. now exists true.
    + destruct (gov tk =? 0); [now exists true |].
      unfold getitem in Hg. rewrite Hg. cbn [bind].
      destruct (negb _); [now exists true | now exists false].
  - destruct (String.eqb (tag tk) "AUX"); [| now exists false].
    apply any_kid_total. intros k Hk.
    rewrite Forall_forall in Hks. specialize (Hks k Hk).
    apply keys_lookup in Hks. destruct Hks as [kt Hkt].
    unfold xpos_is_Vp, getitem. rewrite Hkt. simpl. eauto.
Qed.

Lemma is_finite_verb_or_sconj_total (i : Z) :
  In i (keys t) -> exists v, is_finite_verb_or_sconj t i = Ok v.
Proof.
  intros Hi. pose proof Hi as Hi'.
  apply keys_lookup in Hi. destruct Hi as [tk Hl].
  destruct (Hclosed i tk Hl) as [Hgov Hks].
  unfold is_finite_verb_or_sconj, idgovRel, getitem.
  rewrite Hl. cbn [bind fst].
  destruct (String.eqb (tag tk) "SCONJ").
  - destruct (any_kid_total (is_finite_verb t) (kids tk)) as [b Hb].
    + intros k Hk. apply is_finite_verb_total.
      rewrite Forall_forall in Hks. now apply Hks.
    + rewrite Hb. simpl. eauto.
  - destruct (is_finite_verb_total i Hi') as [fv Hfv].
    rewrite Hfv. cbn [bind].
    destruct fv; [| eauto].
    destruct (gov_token tk Hgov) as [H0 | [g Hg]].
    + rewrite H0. eauto.
    + destruct (gov tk =? 0); [eauto |].
      unfold getitem in Hg. rewrite Hg. cbn [bind].
      destruct (String.eqb (tag g) "SCONJ"); eauto.
Qed.

Lemma drop_anchors_total (l : list Z) :
  Forall (fun i => In i (keys t)) l -> exists r, drop_anchors t l = Ok r.
Proof.
  induction 1 as [| i l Hi _ [r Hr]]; simpl; [eauto |].
  destruct (is_finite_verb_or_sconj_total i Hi) as [v Hv].
  rewrite Hv, Hr. simpl. eauto.
Qed.

Lemma keep_anchors_total (l : list Z) :
  Forall (fun i => In i (keys t)) l -> exists r, keep_anchors t l = Ok r.
Proof.
  induction 1 as [| i l Hi _ [r Hr]]; simpl; [eauto |].
  destruct (is_finite_verb_or_sconj_total i Hi) as [v Hv].
  rewrite Hv, Hr. simpl. eauto.
Qed.
End Closed.

Lemma for_each_inv {X S : Type} (I : S -> Prop)
    (body : X -> S -> result S) (l : list X) :
  (forall x s, In x l -> I s -> exists s', body x s = Ok s' /\ I s') ->
  forall s, I s -> exists s', for_each l s body = Ok s' /\ I s'.
Proof.
  induction l as [| x l IH]; intros Hbody s Hs; simpl; [eauto |].
  destruct (Hbody x s) as (s1 & Hb & Hs1); [now left | exact Hs |].
  rewrite Hb. simpl. apply IH; [| exact Hs1].
  intros y u Hy. apply Hbody. now right.
Qed.

Lemma finder_unfold (fuel : nat) (t : Tree) (i : Z) :
  get_descendants_until_Fin_Verb (S fuel) t i =
  (children <- get_kids t i ;;
   children <- drop_anchors t children ;;
   match children with
   | [] => Ok children
   | _ =>
       for_each children children (fun c descendants =>
         x <- get_descendants_until_Fin_Verb fuel t c ;;
         match x with
         | [] => Ok descendants
         | _ => x <- drop_anchors t x ;; Ok (descendants ++ x)
         end)
   end).
Proof.
  simpl. destruct (get_kids t i) as [ks |]; simpl; [| reflexivity].
  destruct (drop_anchors t ks) as [[| c cs] |]; reflexivity.
Qed.

Section Termination.
Variable t : Tree.
Hypothesis Hclosed : closed_tree t.
Hypothesis Hkids : kids_derived t.
Hypothesis Hacyclic : forall i, ~ descendant t i i.

(** The recursion follows a governor path, whose tokens are distinct:
    the frames already open, [anc], and the fuel left together cover
    the tokens of the tree. *)
Lemma finder_returns (fuel : nat) :
  forall r anc,
    In r (keys t) ->
    NoDup anc -> incl anc (keys t) ->
    (forall a, In a anc -> descendant t a r) ->
    (List.length (keys t) <= fuel + List.length anc)%nat ->
    exists ds,
      get_descendants_until_Fin_Verb fuel t r = Ok ds
      /\ Forall (fun d => In d (keys t)) ds.
Proof.
  induction fuel as [| fuel IH]; intros r anc Hr Hnd Hincl Hanc Hlen.
  - exfalso.
    assert (Hnd' : NoDup (r :: anc)).
    { constructor; [| exact Hnd].
      intros Hin. now apply (Hacyclic r), Hanc. }
    assert (Hincl' : incl (r :: anc) (keys t)).
    { intros x [<- | Hx]; auto. }
    pose proof (NoDup_incl_length Hnd' Hincl') as Hle.
    simpl in Hle, Hlen. lia.
  - rewrite finder_unfold.
    destruct (keys_lookup t r Hr) as [tk Hl].
    destruct (Hclosed r tk Hl) as [_ Hks].
    destruct (Hkids r tk Hl) as [_ Hgov].
    unfold get_kids, getitem. rewrite Hl. cbn [bind].
    destruct (drop_anchors_total t Hclosed (kids tk) Hks) as [ch Hch].
    rewrite Hch. cbn [bind].
    pose proof (drop_anchors_filter t _ _ Hch) as Hfilter.
    assert (Hchk : Forall (fun d => In d (keys t)) ch).
    { subst ch. apply Forall_forall. intros c Hc.
      apply filter_In in Hc. rewrite Forall_forall in Hks.
      now apply Hks. }
    destruct ch as [| c0 ch0] eqn:Hshape; [eauto |].
    rewrite <- Hshape in *.
    apply for_each_inv; [| exact Hchk].
    intros c s Hc Hs.
    assert (Hrc : governs t r c).
    { apply Hgov. rewrite Hfilter in Hc. now apply filter_In in Hc. }
    destruct (IH c (r :: anc)) as (x & Hx & Hxk).
    + now apply governs_in_keys with r.
    + constructor; [| exact Hnd].
      intros Hin. now apply (Hacyclic r), Hanc.
    + intros a [<- | Ha]; auto.
    + intros a [<- | Ha]; [now apply t_step |].
      apply t_trans with r; [now apply Hanc | now apply t_step].
    + simpl. lia.
    + rewrite Hx. cbn [bind].
      destruct x as [| z x0] eqn:Hxs; [eauto |].
      rewrite <- Hxs in *.
      destruct (drop_anchors_total t Hclosed x Hxk) as [x' Hx'].
      rewrite Hx'. cbn [bind]. exists (s ++ x'). split; [reflexivity |].
      apply Forall_app. split; [exact Hs |].
      rewrite (drop_anchors_filter t _ _ Hx').
      apply Forall_forall. intros d Hd. apply filter_In in Hd.
      rewrite Forall_forall in Hxk. now apply Hxk.
Qed.

Lemma finder_total (fuel : nat) (r : Z) :
  In r (keys t) ->
  (List.length t <= fuel)%nat ->
  exists ds, get_descendants_until_Fin_Verb fuel t r = Ok ds.
Proof.
  intros Hr Hlen.
  destruct (finder_returns fuel r []) as (ds & Hds & _); eauto.
  - constructor.
  - intros a [].
  - intros a [].
  - unfold keys. rewrite length_map. simpl. lia.
Qed.
End Termination.

(* ------------------------------------------------------------------ *)
(** ** The clauses of a tree *)

(** What [clause_segmentation] pairs: the anchors of the tree in
    sentence order. *)
Definition anchors (t : Tree) : list Z :=
  filter (is_anchor (addkids t)) (keys t).

(** [clause] is built from anchor [r] with [fuel] frames. *)
Definition clause_of (fuel : nat) (t : Tree) (r : Z) (clause : list Z)
    : Prop :=
  exists ds,
    get_descendants_until_Fin_Verb fuel (addkids t) r = Ok ds
    /\ clause = sorted (ds ++ [r]).

Lemma clause_loop (fuel : nat) (t : Tree) (roots : list Z) :
  forall clauses out,
    for_each roots clauses (fun root clauses =>
      descendants <- get_descendants_until_Fin_Verb fuel (addkids t) root ;;
      Ok (clauses ++ [sorted (descendants ++ [root])])) = Ok out ->
    exists cs, Forall2 (clause_of fuel t) roots cs /\ out = clauses ++ cs.
Proof.
  induction roots as [| r roots IH]; intros clauses out H; simpl in H.
  - injection H as <-. exists []. split; [constructor |].
    now rewrite app_nil_r.
  - inv_bind H. inv_bind Ha. injection Ha as <-.
    destruct (IH _ _ H) as (cs & Hcs & ->).
    exists (sorted (a0 ++ [r]) :: cs). split.
    + constructor; [| exact Hcs]. now exists a0.
    + now rewrite <- app_assoc.
Qed.

Lemma clause_segmentation_pairs (fuel : nat) (t : Tree)
    (clauses : list (list Z)) :
  clause_segmentation fuel t = Ok clauses ->
  Forall2 (clause_of fuel t) (anchors t) clauses.
Proof.
  unfold clause_segmentation, anchors. intros H. inv_bind H.
  apply keep_anchors_filter in Ha. rewrite keys_addkids in Ha.
  rewrite <- Ha.
  destruct a as [| r rs] eqn:Hshape.
  - injection H as <-. constructor.
  - rewrite <- Hshape in *. apply clause_loop in H.
    destruct H as (cs & Hcs & ->). exact Hcs.
Qed.

Lemma clause_segmentation_total (fuel : nat) (t : Tree) :
  wf_tree t -> resolved t -> (List.length t <= fuel)%nat ->
  exists clauses, clause_segmentation fuel t = Ok clauses.
Proof.
  intros Hwf Hres Hlen.
  pose proof (closed_tree_addkids t Hres) as Hclosed.
  pose proof (kids_derived_addkids t (proj1 Hwf)) as Hkids.
  pose proof (proj2 (wf_tree_addkids t Hwf)) as Hacyclic.
  unfold clause_segmentation.
  destruct (keep_anchors_total (addkids t) Hclosed (keys (addkids t)))
    as [fv Hfv]; [apply Forall_forall; auto |].
  rewrite Hfv. cbn [bind].
  destruct fv as [| r rs] eqn:Hshape; [eauto |].
  rewrite <- Hshape in *.
  destruct (for_each_inv (fun _ : list (list Z) => True)
              (fun root clauses =>
                 descendants <-
                   get_descendants_until_Fin_Verb fuel (addkids t) root ;;
                 Ok (clauses ++ [sorted (descendants ++ [root])]))
              fv) with (s := @nil (list Z)) as (out & Hout & _); auto.
  - intros root s Hroot _.
    destruct (finder_total (addkids t) Hclosed Hkids Hacyclic fuel root)
      as [ds Hds].
    + apply keep_anchors_filter in Hfv. rewrite Hfv in Hroot.
      now apply filter_In in Hroot.
    + unfold addkids. now rewrite length_map.
    + rewrite Hds. cbn [bind]. eauto.
  - eauto.
Qed.

Lemma Forall2_impl_In {A B : Type} (R R' : A -> B -> Prop) (l : list A)
    (l' : list B) :
  Forall2 R l l' ->
  (forall a b, In a l -> In b l' -> R a b -> R' a b) ->
  Forall2 R' l l'.
Proof.
  induction 1 as [| x y l l' Hxy _ IH]; intros Himp; constructor.
  - apply Himp; simpl; auto.
  - apply IH. intros a b Ha Hb. apply Himp; now right.
Qed.

Lemma Forall2_combine_In {A B : Type} (R : A -> B -> Prop) (l : list A)
    (l' : list B) (a : A) (b : B) :
  Forall2 R l l' -> In (a, b) (combine l l') -> R a b.
Proof.
  induction 1 as [| x y l l' Hxy _ IH]; simpl; intros Hin; [contradiction |].
  destruct Hin as [Heq | Hin]; [| now apply IH].
  now injection Heq as <- <-.
Qed.

Lemma wf_tree_example : wf_tree tree_example.
Proof. apply wf_treeb_sound. vm_compute. reflexivity. Qed.

Lemma resolved_tree_example : resolved tree_example.
Proof. apply resolvedb_sound. vm_compute. reflexivity. Qed.

Section Clauses.
Variable t : Tree.
Hypothesis Hwf : wf_tree t.

Let Hkids : kids_derived (addkids t) :=
  kids_derived_addkids t (proj1 Hwf).
Let Hacyclic : forall i, ~ descendant (addkids t) i i :=
  proj2 (wf_tree_addkids t Hwf).

Lemma clause_members (fuel : nat) (r : Z) (clause : list Z) :
  clause_of fuel t r clause ->
  StronglySorted Z.lt clause
  /\ forall x, In x clause <-> x = r \/ unblocked (addkids t) r x.
Proof.
  intros (ds & Hds & ->). split.
  - apply sorted_strict. apply NoDup_app.
    + now apply (finder_NoDup (addkids t) Hkids Hacyclic fuel r).
    + constructor; [intros [] | constructor].
    + intros a Ha [<- | []].
      now apply (finder_excludes_root (addkids t) Hkids Hacyclic
                   fuel r ds).
  - intros x. rewrite sorted_In, in_app_iff.
    rewrite (finder_collects (addkids t) Hkids fuel r ds Hds x).
    simpl. intuition congruence.
Qed.

Lemma clauses_apart (fuel : nat) (r1 r2 : Z) (c1 c2 : list Z) :
  is_anchor (addkids t) r1 = true ->
  is_anchor (addkids t) r2 = true ->
  r1 <> r2 ->
  clause_of fuel t r1 c1 -> clause_of fuel t r2 c2 ->
  forall x, In x c1 -> ~ In x c2.
Proof.
  intros Ha1 Ha2 Hne H1 H2 x Hx1 Hx2.
  apply (proj2 (clause_members fuel r1 c1 H1)) in Hx1.
  apply (proj2 (clause_members fuel r2 c2 H2)) in Hx2.
  assert (Hblocked : forall r, is_anchor (addkids t) r = true ->
                               forall a, ~ unblocked (addkids t) a r).
  { intros r Hr a Hu. apply unblocked_not_anchor in Hu. congruence. }
  destruct Hx1 as [-> | Hu1]; destruct Hx2 as [Heq | Hu2].
  - now apply Hne.
  - now apply (Hblocked r1 Ha1 r2).
  - subst x. now apply (Hblocked r2 Ha2 r1).
  - destruct (common_descendant (clause_edge (addkids t))
                (clause_edge_one_parent (addkids t)) r1 r2 x Hu1 Hu2)
      as [Heq | [H | H]].
    + now apply Hne.
    + now apply (Hblocked r2 Ha2 r1).
    + now apply (Hblocked r1 Ha1 r2).
Qed.
End Clauses.

(** C3: on a well-formed tree every clause that [clause_segmentation]
    returns is strictly ascending, without duplicates, contains the
    anchor it was built from, and every other id in it is a descendant of
    that anchor.  When moreover every governor reference resolves, the
    function returns with fuel for one frame per token. *)
Theorem clause_segmentation_clauses (t : Tree) :
  wf_tree t ->
  (forall fuel clauses,
      clause_segmentation fuel t = Ok clauses ->
      Forall2 (fun r clause =>
                 StronglySorted Z.lt clause
                 /\ NoDup clause
                 /\ In r clause
                 /\ forall d, In d clause -> d <> r -> descendant t r d)
              (anchors t) clauses)
  /\ (resolved t ->
      forall fuel, (List.length t <= fuel)%nat ->
      exists clauses, clause_segmentation fuel t = Ok clauses).
Proof.
  intros Hwf. split.
  - intros fuel clauses H.
    apply clause_segmentation_pairs in H.
    apply (Forall2_impl_In _ _ _ _ H).
    intros r clause _ _ Hc.
    destruct (clause_members t Hwf fuel r clause Hc) as [Hs Hmem].
    split; [exact Hs |]. split; [| split].
    + now apply strict_NoDup.
    + apply Hmem. now left.
    + intros d Hd Hne. apply Hmem in Hd. destruct Hd as [-> | Hu].
      * contradiction.
      * apply descendant_addkids. now apply unblocked_descendant.
  - intros Hres fuel Hlen. now apply clause_segmentation_total.
Qed.

Lemma clause_segmentation_clauses_witness :
  Forall2 (fun r clause =>
             StronglySorted Z.lt clause
             /\ NoDup clause
             /\ In r clause
             /\ forall d, In d clause -> d <> r ->
                          descendant tree_example r d)
          [2; 3; 7] [[2]; [1; 3; 5; 6; 8]; [7]]
  /\ exists clauses, clause_segmentation 7 tree_example = Ok clauses.
Proof.
  destruct (clause_segmentation_clauses tree_example wf_tree_example)
    as [Hshape Htotal].
  split.
  - apply (Hshape 7%nat). reflexivity.
  - apply (Htotal resolved_tree_example). simpl. lia.
Defined.

(** C4: on a well-formed tree the finder collects, for any start [r],
    exactly the descendants [d] of [r] such that neither [d] nor a token
    between [r] and [d] on the governor path is an anchor; each clause
    is the sort of the anchor with the ids collected from it, strictly
    ascending; and the finder returns on a token of a tree whose governor
    references resolve, with fuel for one frame per token. *)
Theorem clause_boundary_exact (t : Tree) :
  wf_tree t ->
  (forall fuel r ds,
      get_descendants_until_Fin_Verb fuel (addkids t) r = Ok ds ->
      forall d, In d ds <-> unblocked (addkids t) r d)
  /\ (forall fuel clauses,
         clause_segmentation fuel t = Ok clauses ->
         Forall2 (fun r clause =>
                    exists ds,
                      get_descendants_until_Fin_Verb fuel (addkids t) r
                      = Ok ds
                      /\ clause = sorted (ds ++ [r])
                      /\ StronglySorted Z.lt clause
                      /\ forall x, In x clause <-> x = r \/ In x ds)
                 (anchors t) clauses)
  /\ (resolved t ->
      forall fuel r, In r (keys t) -> (List.length t <= fuel)%nat ->
      exists ds,
        get_descendants_until_Fin_Verb fuel (addkids t) r = Ok ds).
Proof.
  intros Hwf.
  pose proof (kids_derived_addkids t (proj1 Hwf)) as Hkids.
  split; [| split].
  - intros fuel r ds. now apply finder_collects.
  - intros fuel clauses H.
    apply clause_segmentation_pairs in H.
    apply (Forall2_impl_In _ _ _ _ H).
    intros r clause _ _ Hc.
    destruct (clause_members t Hwf fuel r clause Hc) as [Hs Hmem].
    destruct Hc as (ds & Hds & ->).
    exists ds. repeat split; auto.
    + intros Hx. apply sorted_In, in_app_iff in Hx. simpl in Hx.
      intuition congruence.
    + intros Hx. apply sorted_In, in_app_iff. simpl.
      intuition congruence.
  - intros Hres fuel r Hr Hlen.
    apply finder_total.
    + now apply closed_tree_addkids.
    + exact Hkids.
    + exact (proj2 (wf_tree_addkids t Hwf)).
    + now rewrite keys_addkids.
    + unfold addkids. now rewrite length_map.
Qed.

Lemma clause_boundary_exact_witness :
  (forall d, In d [1; 8; 5; 6] <-> unblocked (addkids tree_example) 3 d)
  /\ exists ds,
       get_descendants_until_Fin_Verb 7 (addkids tree_example) 3 = Ok ds.
Proof.
  destruct (clause_boundary_exact tree_example wf_tree_example)
    as (Hcollect & _ & Htotal).
  split.
  - apply (Hcollect 7%nat). reflexivity.
  - apply (Htotal resolved_tree_example).
    + simpl. tauto.
    + simpl. lia.
Defined.

(** C5: on a well-formed tree two clauses that [clause_segmentation]
    returns for distinct anchors share no token id. *)
Theorem clauses_disjoint (t : Tree) :
  wf_tree t ->
  forall fuel clauses,
    clause_segmentation fuel t = Ok clauses ->
    forall r1 r2 c1 c2,
      In (r1, c1) (combine (anchors t) clauses) ->
      In (r2, c2) (combine (anchors t) clauses) ->
      r1 <> r2 ->
      forall x, In x c1 -> ~ In x c2.
Proof.
  intros Hwf fuel clauses H r1 r2 c1 c2 H1 H2 Hne.
  apply clause_segmentation_pairs in H.
  assert (Hanchor : forall r c, In (r, c) (combine (anchors t) clauses) ->
                                is_anchor (addkids t) r = true).
  { intros r c Hin. apply in_combine_l in Hin.
    unfold anchors in Hin. now apply filter_In in Hin. }
  apply (clauses_apart t Hwf fuel r1 r2 c1 c2); eauto.
  - now apply (Forall2_combine_In _ _ _ _ _ H).
  - now apply (Forall2_combine_In _ _ _ _ _ H).
Qed.

Lemma clauses_disjoint_witness :
  Forall (fun x => ~ In x [7]) [1; 3; 5; 6; 8].
Proof.
  apply Forall_forall.
  apply (clauses_disjoint tree_example wf_tree_example 7%nat
           [[2]; [1; 3; 5; 6; 8]; [7]] eq_refl 3 7).
  - simpl. tauto.
  - simpl. tauto.
  - discriminate.
Defined.


(* ------------------------------------------------------------------ *)
(** ** Syntactic bigrams *)

(** On two tokens of the tree the predicate returns whether one governs
    the other, and the order of the arguments does not matter. *)
Theorem is_syntactic_bigram_symmetric (t : Tree) (a b : Z)
    (ta tb : Token) :
  lookup t a = Some ta ->
  lookup t b = Some tb ->
  is_syntactic_bigram t a b = Ok ((gov ta =? b) || (gov tb =? a))
  /\ is_syntactic_bigram t b a = is_syntactic_bigram t a b.
Proof.
  intros Ha Hb.
  unfold is_syntactic_bigram, idgovRel, getitem. rewrite Ha, Hb. simpl.
  destruct (gov ta =? b), (gov tb =? a); auto.
Qed.

Lemma is_syntactic_bigram_symmetric_witness :
  is_syntactic_bigram tree_example 1 3 = Ok ((3 =? 3) || (0 =? 1))
  /\ is_syntactic_bigram tree_example 3 1
     = is_syntactic_bigram tree_example 1 3.
Proof.
  apply (is_syntactic_bigram_symmetric tree_example 1 3
           (tok "ADV" "Db-------------" 3 "advmod")
           (tok "VERB" "VpQW---XR-AA---" 0 "root"));
    reflexivity.
Defined.

(** The second id is looked up only when the first test fails: with a
    governor id that is no token of the tree the predicate answers True
    one way round and raises KeyError the other way round. *)
Theorem is_syntactic_bigram_dangling (t : Tree) (a b : Z) (ta : Token) :
  lookup t a = Some ta ->
  gov ta = b ->
  lookup t b = None ->
  is_syntactic_bigram t a b = Ok true
  /\ is_syntactic_bigram t b a = Raise KeyError.
Proof.
  intros Ha Hg Hb.
  unfold is_syntactic_bigram, idgovRel, getitem. rewrite Ha, Hb. simpl.
  rewrite Hg, Z.eqb_refl. auto.
Qed.

Lemma is_syntactic_bigram_dangling_witness :
  is_syntactic_bigram [(1, tok "NOUN" "NN" 4 "dep")] 1 4 = Ok true
  /\ is_syntactic_bigram [(1, tok "NOUN" "NN" 4 "dep")] 4 1
     = Raise KeyError.
Proof.
  apply (is_syntactic_bigram_dangling _ 1 4 (tok "NOUN" "NN" 4 "dep"));
    reflexivity.
Defined.

(* ------------------------------------------------------------------ *)
(** ** What the classifiers raise *)

Lemma any_kid_raises (p : Z -> result bool) (ks : list Z) (e : exn) :
  (forall k e', p k = Raise e' -> e' = KeyError) ->
  any_kid p ks = Raise e -> e = KeyError.
Proof.
  intros Hp. induction ks as [| k ks IH]; simpl; intros H.
  - discriminate H.
  - destruct (p k) as [[|] | e'] eqn:Hk; simpl in H.
    + discriminate H.
    + now apply IH.
    + injection H as <-. now apply Hp with k.
Qed.

Lemma getitem_raises {A : Type} (t : Tree) (i : Z)
    (k : Token -> result A) (e : exn) :
  (forall tk e', k tk = Raise e' -> e' = KeyError) ->
  bind (getitem t i) k = Raise e -> e = KeyError.
Proof.
  intros Hk. unfold getitem.
  destruct (lookup t i) as [tk |]; simpl; intros H.
  - now apply Hk with tk.
  - now injection H as <-.
Qed.

Lemma idgovRel_raises {A : Type} (t : Tree) (i : Z)
    (k : Z * string -> result A) (e : exn) :
  (forall gr e', k gr = Raise e' -> e' = KeyError) ->
  bind (idgovRel t i) k = Raise e -> e = KeyError.
Proof.
  intros Hk. unfold idgovRel, getitem.
  destruct (lookup t i) as [tk |]; simpl; intros H.
  - now apply Hk with (gov tk, rel tk).
  - now injection H as <-.
Qed.

Lemma is_finite_verb_raises (t : Tree) (i : Z) (e : exn) :
  is_finite_verb t i = Raise e -> e = KeyError.
Proof.
  unfold is_finite_verb. apply getitem_raises. intros tk e'.
  destruct (str_in _ _); [discriminate |].
  destruct (String.eqb (prefix2 (xpos tk)) "Vp").
  - apply idgovRel_raises. intros gr e''. simpl.
    destruct (fst gr =? 0); [discriminate |].
    apply getitem_raises. intros g e3. destruct (negb _); discriminate.
  - destruct (String.eqb (tag tk) "AUX"); [| discriminate].
    apply any_kid_raises. intros k e''. unfold xpos_is_Vp.
    apply getitem_raises. discriminate.
Qed.

Lemma is_finite_verb_or_sconj_raises (t : Tree) (i : Z) (e : exn) :
  is_finite_verb_or_sconj t i = Raise e -> e = KeyError.
Proof.
  unfold is_finite_verb_or_sconj. apply getitem_raises.
  intros tk e'. destruct (String.eqb (tag tk) "SCONJ").
  - destruct (any_kid (is_finite_verb t) (kids tk)) as [b | e''] eqn:Hk;
      simpl; [discriminate |].
    intros H. injection H as <-.
    apply (any_kid_raises _ _ _ (is_finite_verb_raises t) Hk).
  - destruct (is_finite_verb t i) as [[|] | e''] eqn:Hfv; cbn [bind].
    + apply idgovRel_raises. intros gr e3. simpl.
      destruct (fst gr =? 0); [discriminate |].
      apply getitem_raises. intros g e4.
      destruct (String.eqb (tag g) "SCONJ"); discriminate.
    + discriminate.
    + intros H. injection H as <-.
      now apply is_finite_verb_raises with t i.
Qed.

Lemma keep_anchors_raises (t : Tree) (l : list Z) (i : Z) :
  In i l ->
  is_finite_verb_or_sconj t i = Raise KeyError ->
  keep_anchors t l = Raise KeyError.
Proof.
  intros Hin Hi. induction l as [| j l IH]; [contradiction |].
  simpl.
  destruct (is_finite_verb_or_sconj t j) as [v | e] eqn:Hj; simpl.
  - destruct Hin as [-> | Hin]; [congruence |].
    now rewrite (IH Hin).
  - now rewrite (is_finite_verb_or_sconj_raises t j e Hj).
Qed.

(** A verb form whose governor is unattached: the classifier subscripts
    the tree with [-1]. *)
Lemma unattached_verb_raises (t : Tree) (i : Z) (tk : Token) :
  lookup t i = Some tk ->
  tag tk <> "SCONJ" ->
  str_in (prefix2 (xpos tk)) ["Vc"; "Vs"; "VB"; "Vi"; "Vp"] = true ->
  gov tk = -1 ->
  lookup t (-1) = None ->
  is_finite_verb_or_sconj t i = Raise KeyError.
Proof.
  intros Hl Htag Hpre Hg Hmiss.
  apply String.eqb_neq in Htag.
  unfold is_finite_verb_or_sconj, is_finite_verb, idgovRel, getitem.
  rewrite Hl. cbn [bind fst]. rewrite Htag.
  unfold str_in in *. simpl in Hpre. simpl existsb.
  destruct (String.eqb (prefix2 (xpos tk)) "Vc");
    [simpl; rewrite Hg, Hmiss; reflexivity |].
  destruct (String.eqb (prefix2 (xpos tk)) "Vs");
    [simpl; rewrite Hg, Hmiss; reflexivity |].
  destruct (String.eqb (prefix2 (xpos tk)) "VB");
    [simpl; rewrite Hg, Hmiss; reflexivity |].
  destruct (String.eqb (prefix2 (xpos tk)) "Vi");
    [simpl; rewrite Hg, Hmiss; reflexivity |].
  destruct (String.eqb (prefix2 (xpos tk)) "Vp"); [| discriminate Hpre].
  simpl. rewrite Hg, Hmiss. reflexivity.
Qed.

(** [clause_segmentation] raises KeyError on every tree that has a token
    with a verb-form tag (Vc, Vs, VB, Vi or Vp), not tagged SCONJ, whose
    governor is unattached ([-1], which is no token id). *)
Theorem clause_segmentation_unattached_verb (fuel : nat) (t : Tree)
    (i : Z) (tk : Token) :
  lookup t i = Some tk ->
  tag tk <> "SCONJ" ->
  str_in (prefix2 (xpos tk)) ["Vc"; "Vs"; "VB"; "Vi"; "Vp"] = true ->
  gov tk = -1 ->
  ~ In (-1) (keys t) ->
  clause_segmentation fuel t = Raise KeyError.
Proof.
  intros Hl Htag Hpre Hg Hmiss.
  unfold clause_segmentation.
  rewrite (keep_anchors_raises (addkids t) (keys (addkids t)) i);
    [reflexivity | |].
  - rewrite keys_addkids. now apply lookup_Some_keys with tk.
  - apply (unattached_verb_raises (addkids t) i
             (set_kids (children_of t i) tk)); auto.
    + rewrite lookup_addkids, Hl. reflexivity.
    + rewrite lookup_addkids.
      destruct (lookup t (-1)) as [tk' |] eqn:Hl'; [| reflexivity].
      exfalso. apply Hmiss. now apply lookup_Some_keys with tk'.
Qed.

Definition tree_unattached : Tree :=
  [ (1, tok "NOUN" "NNFS1-----A----" 2 "subj");
    (2, tok "VERB" "VB-S---3P-AA---" (-1) "") ].

Lemma clause_segmentation_unattached_verb_witness :
  is_complete tree_unattached = Ok false
  /\ clause_segmentation 2 tree_unattached = Raise KeyError.
Proof.
  split; [reflexivity |].
  apply (clause_segmentation_unattached_verb 2 tree_unattached 2
           (tok "VERB" "VB-S---3P-AA---" (-1) "")).
  - reflexivity.
  - simpl. discriminate.
  - reflexivity.
  - reflexivity.
  - simpl. intros [H | [H | []]]; discriminate H.
Defined.

(* ------------------------------------------------------------------ *)
(** ** A subordinator and the verb it governs *)

Lemma any_kid_true (p : Z -> result bool) (ks : list Z) (v : Z) :
  (forall k, In k ks -> exists b, p k = Ok b) ->
  In v ks -> p v = Ok true ->
  any_kid p ks = Ok true.
Proof.
  induction ks as [| k ks IH]; intros Htot Hin Hv; [contradiction |].
  simpl. destruct (Htot k) as [b Hb]; [now left |].
  rewrite Hb. simpl. destruct b; [reflexivity |].
  destruct Hin as [-> | Hin]; [congruence |].
  apply IH; auto. intros k' Hk'. apply Htot. now right.
Qed.

(** When a SCONJ token governs a finite verb, the SCONJ token is the
    anchor and the verb is not: the clause is counted once. *)
Theorem sconj_takes_the_anchor (t : Tree) (s v : Z) (ts tv : Token) :
  closed_tree t ->
  lookup t s = Some ts -> tag ts = "SCONJ" ->
  lookup t v = Some tv -> tag tv <> "SCONJ" ->
  In v (kids ts) -> gov tv = s -> s <> 0 ->
  is_finite_verb t v = Ok true ->
  is_finite_verb_or_sconj t s = Ok (Some true)
  /\ is_finite_verb_or_sconj t v = Ok (Some false).
Proof.
  intros Hclosed Hs Hts Hv Htv Hkid Hgov Hs0 Hfv.
  split.
  - unfold is_finite_verb_or_sconj, getitem. rewrite Hs. cbn [bind].
    rewrite Hts. simpl String.eqb. cbv iota.
    rewrite (any_kid_true (is_finite_verb t) (kids ts) v); auto.
    intros k Hk. apply is_finite_verb_total; [exact Hclosed |].
    destruct (Hclosed s ts Hs) as [_ Hks].
    rewrite Forall_forall in Hks. now apply Hks.
  - apply String.eqb_neq in Htv. apply Z.eqb_neq in Hs0.
    unfold is_finite_verb_or_sconj, idgovRel, getitem.
    rewrite Hv. cbn [bind fst]. rewrite Htv, Hfv. cbn [bind].
    rewrite Hgov, Hs0, Hs. cbn [bind]. rewrite Hts. reflexivity.
Qed.

Definition tree_subordinate : Tree :=
  [ (1, tok "VERB"  "VB-S---3P-AA---" 0 "root");
    (2, tok "SCONJ" "J,-------------" 1 "comp:obj");
    (3, tok "VERB"  "VB-S---3P-AA---" 2 "comp:obj") ].

Lemma sconj_takes_the_anchor_witness :
  is_finite_verb_or_sconj (addkids tree_subordinate) 2 = Ok (Some true)
  /\ is_finite_verb_or_sconj (addkids tree_subordinate) 3
     = Ok (Some false).
Proof.
  apply (sconj_takes_the_anchor (addkids tree_subordinate) 2 3
           (set_kids [3] (tok "SCONJ" "J,-------------" 1 "comp:obj"))
           (set_kids [] (tok "VERB" "VB-S---3P-AA---" 2 "comp:obj"))).
  - apply closed_tree_addkids, resolvedb_sound. reflexivity.
  - reflexivity.
  - reflexivity.
  - reflexivity.
  - simpl. discriminate.
  - simpl. tauto.
  - reflexivity.
  - discriminate.
  - reflexivity.
Defined.

(* ------------------------------------------------------------------ *)
(** ** Segments as runs of linked neighbours *)

(** The link tests of the two strategies, read as booleans. *)
Definition linked_1 (t : Tree) (ci cp : Z) : bool :=
  match is_syntactic_bigram t ci cp with
  | Ok b => b
  | Raise _ => false
  end.

Definition linked_2 (t : Tree) (ci cp : Z) : bool :=
  (cp + 1 =? ci) && linked_1 t ci cp.

(** The list cut before every id that is not linked to the id before. *)
Fixpoint runs (linked : Z -> Z -> bool) (clause : list Z)
    : list (list Z) :=
  match clause with
  | [] => []
  | x :: rest =>
      match rest with
      | [] => [[x]]
      | y :: _ =>
          match runs linked rest with
          | s :: r => if linked y x then (x :: s) :: r else [x] :: s :: r
          | [] => [[x]]
          end
      end
  end.

(** Neighbours in a segment are related. *)
Fixpoint chained (R : Z -> Z -> Prop) (s : list Z) : Prop :=
  match s with
  | [] => True
  | x :: s' =>
      match s' with
      | [] => True
      | y :: _ => R x y /\ chained R s'
      end
  end.

(** The last id of a segment and the first id of the next one are
    related. *)
Fixpoint seams (R : Z -> Z -> Prop) (segments : list (list Z)) : Prop :=
  match segments with
  | [] => True
  | s :: r =>
      match r with
      | [] => True
      | s' :: _ => R (last s 0) (hd 0 s') /\ seams R r
      end
  end.

Definition glue (cur : list Z) (r : list (list Z)) : list (list Z) :=
  match r with
  | s :: r' => (cur ++ s) :: r'
  | [] => []
  end.

Lemma runs_cons (linked : Z -> Z -> bool) (x y : Z) (l : list Z) :
  exists s r,
    runs linked (y :: l) = (y :: s) :: r
    /\ runs linked (x :: y :: l) =
       if linked y x then (x :: y :: s) :: r else [x] :: (y :: s) :: r.
Proof.
  revert x y. induction l as [| z l IH]; intros x y.
  - exists [], []. split; reflexivity.
  - destruct (IH y z) as (s & r & Hzl & Hyzl).
    assert (Hy : exists s' r', runs linked (y :: z :: l) = (y :: s') :: r').
    { rewrite Hyzl. destruct (linked z y); eauto. }
    destruct Hy as (s' & r' & Hy). exists s', r'. split; [exact Hy |].
    change (runs linked (x :: y :: z :: l))
      with (match runs linked (y :: z :: l) with
            | s0 :: r0 => if linked y x then (x :: s0) :: r0
                          else [x] :: s0 :: r0
            | [] => [[x]]
            end).
    now rewrite Hy.
Qed.

Lemma append_last_snoc (init : list (list Z)) (s : list Z) (x : Z) :
  append_last (init ++ [s]) x = Ok (init ++ [s ++ [x]]).
Proof.
  induction init as [| s0 init IH]; [reflexivity |].
  change (append_last ((s0 :: init) ++ [s]) x)
    with (append_last (s0 :: (init ++ [s])) x).
  destruct (init ++ [s]) as [| s1 rest] eqn:Hshape.
  - now destruct init.
  - change (append_last (s0 :: s1 :: rest) x)
      with (rest' <- append_last (s1 :: rest) x ;; Ok (s0 :: rest')).
    rewrite IH. reflexivity.
Qed.

Lemma nth_error_middle (pre : list Z) (x : Z) (rest : list Z) :
  nth_error (pre ++ x :: rest) (List.length pre) = Some x.
Proof.
  induction pre as [| p pre IH]; [reflexivity | exact IH].
Qed.

(** The loop over the positions after [prev], whatever the body does to
    decide, as long as it decides by [linked]. *)
Lemma walk_runs (linked : Z -> Z -> bool) (clause : list Z)
    (body : nat -> list (list Z) -> result (list (list Z))) :
  (forall i ci cp segments,
      nth_error clause (S i) = Some ci ->
      nth_error clause i = Some cp ->
      body (S i) segments =
      if linked ci cp then append_last segments ci
      else Ok (segments ++ [[ci]])) ->
  forall rest pre prev cur init,
    clause = pre ++ prev :: rest ->
    for_each (seq (S (List.length pre)) (List.length rest))
             (init ++ [cur ++ [prev]]) body
    = Ok (init ++ glue cur (runs linked (prev :: rest))).
Proof.
  intros Hbody. induction rest as [| c rest IH];
    intros pre prev cur init Hclause.
  - reflexivity.
  - simpl for_each.
    rewrite (Hbody (List.length pre) c prev).
    + destruct (runs_cons linked prev c rest) as (s & r & Hc & Hpc).
      rewrite Hpc.
      assert (Hclause' : clause = (pre ++ [prev]) ++ c :: rest).
      { rewrite Hclause, <- app_assoc. reflexivity. }
      assert (Hlen : S (S (List.length pre))
                     = S (List.length (pre ++ [prev]))).
      { rewrite length_app. simpl. lia. }
      destruct (linked c prev).
      * rewrite append_last_snoc. cbn [bind]. rewrite Hlen.
        rewrite (IH (pre ++ [prev]) c (cur ++ [prev]) init Hclause').
        rewrite Hc. simpl. now rewrite <- app_assoc.
      * cbn [bind]. rewrite Hlen.
        change (init ++ [cur ++ [prev]]) with (init ++ [cur ++ [prev]]).
        replace ((init ++ [cur ++ [prev]]) ++ [[c]])
          with ((init ++ [cur ++ [prev]]) ++ [[] ++ [c]]) by reflexivity.
        rewrite (IH (pre ++ [prev]) c [] (init ++ [cur ++ [prev]])
                   Hclause').
        rewrite Hc. simpl. now rewrite <- app_assoc.
    + rewrite Hclause.
      replace (pre ++ prev :: c :: rest)
        with ((pre ++ [prev]) ++ c :: rest)
        by (rewrite <- app_assoc; reflexivity).
      replace (S (List.length pre)) with (List.length (pre ++ [prev]))
        by (rewrite length_app; simpl; lia).
      apply nth_error_middle.
    + rewrite Hclause. apply nth_error_middle.
Qed.

Lemma linked_1_Ok (t : Tree) (ci cp : Z) :
  In ci (keys t) -> In cp (keys t) ->
  is_syntactic_bigram t ci cp = Ok (linked_1 t ci cp).
Proof.
  intros Hi Hp. unfold linked_1.
  destruct (is_syntactic_bigram_total t ci cp Hi Hp) as [b ->].
  reflexivity.
Qed.

(** Both strategies compute the runs of their link test. *)
Lemma ngrams_are_runs (t : Tree) (clause : list Z) :
  clause <> [] ->
  Forall (fun i => In i (keys t)) clause ->
  syntactically_linked_ngrams_1 t clause
  = Ok (runs (linked_1 t) clause)
  /\ syntactically_linked_ngrams_2 t clause
     = Ok (runs (linked_2 t) clause).
Proof.
  intros Hne Hvalid. destruct clause as [| c0 rest]; [contradiction |].
  rewrite Forall_forall in Hvalid.
  assert (Hglue : forall linked,
             [] ++ glue [] (runs linked (c0 :: rest))
             = runs linked (c0 :: rest)).
  { intros linked. destruct rest as [| c1 rest].
    - reflexivity.
    - destruct (runs_cons linked c0 c1 rest) as (s & r & _ & ->).
      now destruct (linked c1 c0). }
  assert (Hrange : range1 (List.length (c0 :: rest))
                   = seq 1 (List.length rest)).
  { unfold range1. simpl. now rewrite Nat.sub_0_r. }
  split.
  - unfold syntactically_linked_ngrams_1.
    change (index (c0 :: rest) 0) with (Ok c0). cbn [bind].
    rewrite Hrange, <- (Hglue (linked_1 t)).
    apply (walk_runs (linked_1 t) (c0 :: rest)) with (pre := [])
      (cur := []) (init := []); [| reflexivity].
    intros i ci cp segments Hci Hcp. unfold index.
    replace (S i - 1)%nat with i by lia.
    rewrite Hci, Hcp. cbn [bind].
    rewrite linked_1_Ok; [reflexivity | |];
      apply Hvalid; eapply nth_error_In; eauto.
  - unfold syntactically_linked_ngrams_2.
    change (index (c0 :: rest) 0) with (Ok c0). cbn [bind].
    rewrite Hrange, <- (Hglue (linked_2 t)).
    apply (walk_runs (linked_2 t) (c0 :: rest)) with (pre := [])
      (cur := []) (init := []); [| reflexivity].
    intros i ci cp segments Hci Hcp. unfold index.
    replace (S i - 1)%nat with i by lia.
    rewrite Hci, Hcp. cbn [bind]. unfold linked_2.
    destruct (cp + 1 =? ci); [| reflexivity].
    rewrite linked_1_Ok; [reflexivity | |];
      apply Hvalid; eapply nth_error_In; eauto.
Qed.

Lemma chained_impl (R R' : Z -> Z -> Prop) (s : list Z) :
  (forall x y, R x y -> R' x y) -> chained R s -> chained R' s.
Proof.
  intros Himp. induction s as [| x s IH]; [auto |].
  destruct s as [| y s]; [auto |].
  intros [Hxy Hs]. split; [now apply Himp | now apply IH].
Qed.

Lemma seams_impl (R R' : Z -> Z -> Prop) (segments : list (list Z)) :
  (forall x y, R x y -> R' x y) -> seams R segments -> seams R' segments.
Proof.
  intros Himp. induction segments as [| s r IH]; [auto |].
  destruct r as [| s' r]; [auto |].
  intros [Hxy Hs]. split; [now apply Himp | now apply IH].
Qed.

Lemma chained_nth (R : Z -> Z -> Prop) (l : list Z) (i : nat) (a b : Z) :
  chained R l ->
  nth_error l i = Some a -> nth_error l (S i) = Some b -> R a b.
Proof.
  revert i. induction l as [| x l IH]; intros i Hch Ha Hb.
  - destruct i; discriminate Ha.
  - destruct l as [| y l]; [destruct i; discriminate Hb |].
    destruct Hch as [Hxy Hch]. destruct i as [| i].
    + simpl in Ha, Hb. injection Ha as <-. injection Hb as <-. exact Hxy.
    + now apply (IH i).
Qed.

(** In the runs of a list, neighbours inside a run are linked and the
    ids on the two sides of a cut are not. *)
Lemma runs_shape (linked : Z -> Z -> bool) (l : list Z) :
  Forall (chained (fun x y => linked y x = true)) (runs linked l)
  /\ seams (fun x y => linked y x = false) (runs linked l).
Proof.
  induction l as [| x l IH]; [split; constructor |].
  destruct l as [| y l].
  - split; [repeat constructor | exact I].
  - destruct (runs_cons linked x y l) as (s & r & Hy & Hxy).
    rewrite Hy in IH. destruct IH as [Hch Hse]. rewrite Hxy.
    inversion Hch as [| ? ? Hs Hr]; subst.
    destruct (linked y x) eqn:Hl.
    + split.
      * constructor; [| exact Hr]. split; [exact Hl | exact Hs].
      * destruct r as [| s' r]; [exact I |].
        destruct Hse as [Hcut Hse]. split; [| exact Hse].
        exact Hcut.
    + split.
      * constructor; [exact I | exact Hch].
      * split; [exact Hl | exact Hse].
Qed.

Lemma linked_1_true (t : Tree) (ci cp : Z) :
  linked_1 t ci cp = true <-> is_syntactic_bigram t ci cp = Ok true.
Proof.
  unfold linked_1. destruct (is_syntactic_bigram t ci cp) as [[|] | e];
    split; intros H; try reflexivity; discriminate H.
Qed.

(** Strategy 1 cuts the clause into maximal runs: inside a segment every
    id is a syntactic bigram with the id before it, and the first id of a
    segment is not one with the last id of the segment before. *)
Theorem ngrams_1_maximal_runs (t : Tree) (clause : list Z) :
  clause <> [] ->
  Forall (fun i => In i (keys t)) clause ->
  exists segments,
    syntactically_linked_ngrams_1 t clause = Ok segments
    /\ Forall (chained (fun x y => is_syntactic_bigram t y x = Ok true))
              segments
    /\ seams (fun x y => is_syntactic_bigram t y x <> Ok true) segments.
Proof.
  intros Hne Hvalid.
  destruct (ngrams_are_runs t clause Hne Hvalid) as [H1 _].
  destruct (runs_shape (linked_1 t) clause) as [Hch Hse].
  exists (runs (linked_1 t) clause). split; [exact H1 |]. split.
  - apply Forall_impl with (2 := Hch). intros s.
    apply chained_impl. intros x y. now apply linked_1_true.
  - apply seams_impl with (2 := Hse). intros x y Hf Ht.
    apply linked_1_true in Ht. congruence.
Qed.

Lemma ngrams_1_maximal_runs_witness :
  exists segments,
    syntactically_linked_ngrams_1 tree_example [1; 3; 5; 6; 8]
    = Ok segments
    /\ Forall (chained (fun x y =>
                          is_syntactic_bigram tree_example y x = Ok true))
              segments
    /\ seams (fun x y =>
                is_syntactic_bigram tree_example y x <> Ok true) segments.
Proof.
  apply ngrams_1_maximal_runs.
  - discriminate.
  - repeat constructor; simpl; tauto.
Defined.

(** Strategy 2 cuts the clause into maximal runs of consecutive ids that
    are syntactic bigrams: inside a segment every id is the id before it
    plus one and linked to it, and across a cut this fails. *)
Theorem ngrams_2_consecutive_runs (t : Tree) (clause : list Z) :
  clause <> [] ->
  Forall (fun i => In i (keys t)) clause ->
  exists segments,
    syntactically_linked_ngrams_2 t clause = Ok segments
    /\ Forall (chained (fun x y =>
                 y = x + 1 /\ is_syntactic_bigram t y x = Ok true))
              segments
    /\ seams (fun x y =>
                ~ (y = x + 1 /\ is_syntactic_bigram t y x = Ok true))
             segments.
Proof.
  intros Hne Hvalid.
  destruct (ngrams_are_runs t clause Hne Hvalid) as [_ H2].
  destruct (runs_shape (linked_2 t) clause) as [Hch Hse].
  assert (Hl2 : forall x y, linked_2 t y x = true <->
                  y = x + 1 /\ is_syntactic_bigram t y x = Ok true).
  { intros x y. unfold linked_2.
    rewrite andb_true_iff, Z.eqb_eq, linked_1_true. intuition. }
  exists (runs (linked_2 t) clause). split; [exact H2 |]. split.
  - apply Forall_impl with (2 := Hch). intros s.
    apply chained_impl. intros x y. apply Hl2.
  - apply seams_impl with (2 := Hse). intros x y Hf Ht.
    apply Hl2 in Ht. congruence.
Qed.

Lemma ngrams_2_consecutive_runs_witness :
  exists segments,
    syntactically_linked_ngrams_2 tree_example [5; 6; 7; 8] = Ok segments
    /\ Forall (chained (fun x y =>
                 y = x + 1
                 /\ is_syntactic_bigram tree_example y x = Ok true))
              segments
    /\ seams (fun x y =>
                ~ (y = x + 1
                   /\ is_syntactic_bigram tree_example y x = Ok true))
             segments.
Proof.
  apply ngrams_2_consecutive_runs.
  - discriminate.
  - repeat constructor; simpl; tauto.
Defined.

Lemma runs_step (linked : Z -> Z -> bool) (x y : Z) (l : list Z) :
  runs linked (x :: y :: l) =
  match runs linked (y :: l) with
  | s :: r => if linked y x then (x :: s) :: r else [x] :: s :: r
  | [] => [[x]]
  end.
Proof. reflexivity. Qed.

Lemma runs_ext (l1 l2 : Z -> Z -> bool) (l : list Z) :
  chained (fun x y => l1 y x = l2 y x) l -> runs l1 l = runs l2 l.
Proof.
  induction l as [| x l IH]; [reflexivity |].
  destruct l as [| y l]; [reflexivity |].
  intros [Hxy Hch]. rewrite !runs_step, (IH Hch), Hxy. reflexivity.
Qed.

(** On a clause without gaps (every id is the id before it plus one) the
    two strategies return the same segments. *)
Theorem ngrams_agree_without_gaps (t : Tree) (clause : list Z) :
  clause <> [] ->
  Forall (fun i => In i (keys t)) clause ->
  chained (fun x y => y = x + 1) clause ->
  syntactically_linked_ngrams_2 t clause
  = syntactically_linked_ngrams_1 t clause.
Proof.
  intros Hne Hvalid Hgap.
  destruct (ngrams_are_runs t clause Hne Hvalid) as [-> ->].
  f_equal. apply runs_ext.
  apply chained_impl with (2 := Hgap). intros x y ->.
  unfold linked_2. now rewrite Z.eqb_refl.
Qed.

Lemma ngrams_agree_without_gaps_witness :
  syntactically_linked_ngrams_2 tree_example [5; 6; 7; 8]
  = syntactically_linked_ngrams_1 tree_example [5; 6; 7; 8].
Proof.
  apply ngrams_agree_without_gaps.
  - discriminate.
  - repeat constructor; simpl; tauto.
  - simpl. lia.
Defined.

Lemma runs_refine (l1 l2 : Z -> Z -> bool) (l : list Z) :
  (forall a b, l2 a b = true -> l1 a b = true) ->
  exists groups : list (list (list Z)),
    Forall (fun g => g <> []) groups
    /\ List.concat groups = runs l2 l
    /\ map (@List.concat Z) groups = runs l1 l.
Proof.
  intros Himp. induction l as [| x l IH].
  - exists []. repeat split. constructor.
  - destruct l as [| y l].
    + exists [[[x]]]. repeat split.
      constructor; [discriminate | constructor].
    + destruct IH as (groups & Hne & Hcat & Hmap).
      destruct (runs_cons l1 x y l) as (s1 & r1 & Hy1 & Hx1).
      destruct (runs_cons l2 x y l) as (s2 & r2 & Hy2 & Hx2).
      rewrite Hy1 in Hmap. rewrite Hy2 in Hcat. rewrite Hx1, Hx2.
      destruct groups as [| g groups]; [discriminate Hmap |].
      inversion Hne as [| ? ? Hg Hne']; subst.
      destruct g as [| s g]; [contradiction |].
      simpl in Hcat, Hmap.
      injection Hcat as -> Hr2. injection Hmap as Hs1 Hr1.
      destruct (l2 y x) eqn:H2.
      * rewrite (Himp y x H2).
        exists (((x :: y :: s2) :: g) :: groups). split; [| split].
        -- constructor; [discriminate | exact Hne'].
        -- simpl. now rewrite Hr2.
        -- simpl. rewrite Hr1. simpl in Hs1. now rewrite Hs1.
      * destruct (l1 y x).
        -- exists (([x] :: (y :: s2) :: g) :: groups). split; [| split].
           ++ constructor; [discriminate | exact Hne'].
           ++ simpl. now rewrite Hr2.
           ++ simpl. rewrite Hr1. simpl in Hs1. now rewrite Hs1.
        -- exists ([[x]] :: ((y :: s2) :: g) :: groups). split; [| split].
           ++ constructor; [discriminate | exact Hne].
           ++ simpl. now rewrite Hr2.
           ++ simpl. rewrite Hr1. simpl in Hs1. now rewrite Hs1.
Qed.

(** Strategy 2 refines strategy 1: the segments of strategy 1 are
    obtained by merging neighbouring segments of strategy 2, so every cut
    of strategy 1 is a cut of strategy 2. *)
Theorem ngrams_2_refines_ngrams_1 (t : Tree) (clause : list Z) :
  clause <> [] ->
  Forall (fun i => In i (keys t)) clause ->
  exists s1 s2 (groups : list (list (list Z))),
    syntactically_linked_ngrams_1 t clause = Ok s1
    /\ syntactically_linked_ngrams_2 t clause = Ok s2
    /\ Forall (fun g => g <> []) groups
    /\ List.concat groups = s2
    /\ map (@List.concat Z) groups = s1.
Proof.
  intros Hne Hvalid.
  destruct (ngrams_are_runs t clause Hne Hvalid) as [H1 H2].
  destruct (runs_refine (linked_1 t) (linked_2 t) clause)
    as (groups & Hg & Hcat & Hmap).
  - intros a b H. unfold linked_2 in H. now apply andb_prop in H.
  - exists (runs (linked_1 t) clause), (runs (linked_2 t) clause), groups.
    auto.
Qed.

Lemma ngrams_2_refines_ngrams_1_witness :
  exists s1 s2 (groups : list (list (list Z))),
    syntactically_linked_ngrams_1 tree_example [1; 3; 5; 6; 8] = Ok s1
    /\ syntactically_linked_ngrams_2 tree_example [1; 3; 5; 6; 8] = Ok s2
    /\ Forall (fun g => g <> []) groups
    /\ List.concat groups = s2
    /\ map (@List.concat Z) groups = s1.
Proof.
  apply ngrams_2_refines_ngrams_1.
  - discriminate.
  - repeat constructor; simpl; tauto.
Defined.

(** The edge cases of both strategies: the empty clause raises
    IndexError at [clause[0]], and a clause of one id is returned as one
    segment without any lookup in the tree. *)
Theorem ngrams_short_clause (t : Tree) (c : Z) :
  syntactically_linked_ngrams_1 t [] = Raise IndexError
  /\ syntactically_linked_ngrams_2 t [] = Raise IndexError
  /\ syntactically_linked_ngrams_1 t [c] = Ok [[c]]
  /\ syntactically_linked_ngrams_2 t [c] = Ok [[c]].
Proof. repeat split. Qed.

Lemma runs_never_linked (l : list Z) :
  runs (fun _ _ => false) l = map (fun c => [c]) l.
Proof.
  induction l as [| x l IH]; [reflexivity |].
  destruct l as [| y l]; [reflexivity |].
  rewrite runs_step, IH. reflexivity.
Qed.

(** Strategy 2 tests adjacency first: on a clause in which no id is the
    id before it plus one, it returns one segment per id and never looks
    into the tree, whatever the ids are. *)
Theorem ngrams_2_all_gaps (t : Tree) (clause : list Z) :
  clause <> [] ->
  chained (fun x y => y <> x + 1) clause ->
  syntactically_linked_ngrams_2 t clause
  = Ok (map (fun c => [c]) clause).
Proof.
  intros Hne Hgaps. destruct clause as [| c0 rest]; [contradiction |].
  unfold syntactically_linked_ngrams_2.
  change (index (c0 :: rest) 0) with (Ok c0). cbn [bind].
  replace (range1 (List.length (c0 :: rest)))
    with (seq 1 (List.length rest))
    by (unfold range1; simpl; now rewrite Nat.sub_0_r).
  rewrite <- runs_never_linked.
  assert (Hglue : [] ++ glue [] (runs (fun _ _ => false) (c0 :: rest))
                  = runs (fun _ _ => false) (c0 :: rest)).
  { destruct rest as [| c1 rest]; [reflexivity |].
    now rewrite runs_step, !runs_never_linked. }
  rewrite <- Hglue.
  apply (walk_runs (fun _ _ => false) (c0 :: rest)) with (pre := [])
    (cur := []) (init := []); [| reflexivity].
  intros i ci cp segments Hci Hcp. unfold index.
  replace (S i - 1)%nat with i by lia.
  rewrite Hci, Hcp. cbn [bind].
  pose proof (chained_nth _ _ i cp ci Hgaps Hcp Hci) as Hgap.
  apply not_eq_sym, Z.eqb_neq in Hgap. rewrite Hgap. reflexivity.
Qed.

Lemma ngrams_2_all_gaps_witness :
  syntactically_linked_ngrams_2 [] [10; 20; 30] = Ok [[10]; [20]; [30]].
Proof.
  apply (ngrams_2_all_gaps [] [10; 20; 30]).
  - discriminate.
  - simpl. lia.
Defined.

(* ------------------------------------------------------------------ *)
(** ** All descendants *)

(** The recursion of the source, [fuel] frames deep at most. *)
Fixpoint get_descendants (fuel : nat) (t : Tree) (i : Z)
    : result (list Z) :=
  match fuel with
  | O => Raise RecursionError
  | S fuel' =>
      let descendants := [] in
      children <- get_kids t i ;;
      let descendants := descendants ++ children in
      match children with
      | [] => Ok descendants
      | _ =>
          for_each children descendants (fun c descendants =>
            x <- get_descendants fuel' t c ;;
            match x with
            | [] => Ok descendants
            | _ => Ok (descendants ++ x)
            end)
      end
  end.

Lemma descendants_loop (fuel : nat) (t : Tree) (cs : list Z) :
  forall descendants ds,
    for_each cs descendants (fun c descendants =>
      x <- get_descendants fuel t c ;;
      match x with
      | [] => Ok descendants
      | _ => Ok (descendants ++ x)
      end) = Ok ds ->
    exists xs,
      Forall2 (fun c x => get_descendants fuel t c = Ok x) cs xs
      /\ ds = descendants ++ List.concat xs.
Proof.
  induction cs as [| c cs IH]; intros descendants ds H; simpl in H.
  - injection H as <-. exists []. split; [constructor |].
    simpl. now rewrite app_nil_r.
  - inv_bind H. inv_bind Ha.
    assert (Hstep : a = descendants ++ a0).
    { destruct a0; injection Ha as <-; [now rewrite app_nil_r | easy]. }
    destruct (IH a ds H) as (xs & Hxs & Hds).
    exists (a0 :: xs). split; [now constructor |].
    rewrite Hds, Hstep. simpl. now rewrite app_assoc.
Qed.

Lemma descendants_frame (fuel : nat) (t : Tree) (r : Z) (ds : list Z) :
  get_descendants (S fuel) t r = Ok ds ->
  exists tk xs,
    lookup t r = Some tk
    /\ Forall2 (fun c x => get_descendants fuel t c = Ok x) (kids tk) xs
    /\ ds = kids tk ++ List.concat xs.
Proof.
  intros H. simpl in H. inv_bind H.
  unfold get_kids in Ha. inv_bind Ha. injection Ha as <-.
  apply getitem_Ok in Ha0. exists a0.
  destruct (kids a0) as [| c cs] eqn:Hch.
  - injection H as <-. exists [].
    split; [exact Ha0 | split; [constructor | reflexivity]].
  - apply descendants_loop in H. destruct H as (xs & Hxs & Hds).
    exists xs. auto.
Qed.

Section Descendants.
Variable t : Tree.
Hypothesis Hkids : kids_derived t.

Lemma descendants_collects (fuel : nat) :
  forall r ds,
    get_descendants fuel t r = Ok ds ->
    forall d, In d ds <-> descendant t r d.
Proof.
  induction fuel as [| fuel IH]; intros r ds H d; [discriminate H |].
  apply descendants_frame in H. destruct H as (tk & xs & Hl & HF & ->).
  destruct (Hkids r tk Hl) as [_ Hk].
  split.
  - intros Hin. apply in_app_or in Hin. destruct Hin as [Hin | Hin].
    + apply t_step. now apply Hk.
    + apply in_concat in Hin. destruct Hin as (x & Hx & Hdx).
      destruct (Forall2_In_r _ _ _ _ HF Hx) as (c & Hc & Hxc).
      apply t_trans with c.
      * apply t_step. now apply Hk.
      * now apply (IH c x).
  - intros Hd. apply in_or_app.
    destruct (clos_trans_first _ _ _ Hd) as (c & Hg & [-> | Hcd]).
    + left. now apply Hk.
    + right. apply Hk in Hg.
      destruct (Forall2_In_l _ _ _ _ HF Hg) as (x & Hx & Hxc).
      apply in_concat. exists x. split; [exact Hx |].
      now apply (IH c x).
Qed.

Hypothesis Hacyclic : forall i, ~ descendant t i i.

Lemma descendants_NoDup (fuel : nat) :
  forall r ds, get_descendants fuel t r = Ok ds -> NoDup ds.
Proof.
  induction fuel as [| fuel IH]; intros r ds H; [discriminate H |].
  apply descendants_frame in H. destruct H as (tk & xs & Hl & HF & ->).
  destruct (Hkids r tk Hl) as [Hnd Hk].
  apply NoDup_app.
  - exact Hnd.
  - apply (NoDup_concat_Forall2 _ _ _ HF); [exact Hnd | |].
    + intros c x _ Hx. now apply (IH c).
    + intros c c' x x' d Hc Hc' Hne Hx Hx' Hd Hd'.
      apply (sibling_subtrees_apart t Hacyclic r c c' d).
      * now apply Hk.
      * now apply Hk.
      * exact Hne.
      * now apply (descendants_collects fuel c x).
      * now apply (descendants_collects fuel c' x').
  - intros d Hd Hd'. apply in_concat in Hd'.
    destruct Hd' as (x & Hx & Hdx).
    destruct (Forall2_In_r _ _ _ _ HF Hx) as (c & Hc & Hxc).
    apply (descendants_collects fuel c x Hxc) in Hdx.
    apply Hk in Hd. apply Hk in Hc.
    destruct (path_via_parent (governs t) (governs_one_parent t)
                r c d Hd Hdx) as [-> | Hcr].
    + apply (Hacyclic r). now apply t_step.
    + apply (Hacyclic r).
      apply t_trans with c; [now apply t_step | exact Hcr].
Qed.

Lemma descendants_returns (fuel : nat) :
  forall r anc,
    In r (keys t) ->
    NoDup anc -> incl anc (keys t) ->
    (forall a, In a anc -> descendant t a r) ->
    (List.length (keys t) <= fuel + List.length anc)%nat ->
    exists ds, get_descendants fuel t r = Ok ds.
Proof.
  induction fuel as [| fuel IH]; intros r anc Hr Hnd Hincl Hanc Hlen.
  - exfalso.
    assert (Hnd' : NoDup (r :: anc)).
    { constructor; [| exact Hnd].
      intros Hin. now apply (Hacyclic r), Hanc. }
    assert (Hincl' : incl (r :: anc) (keys t)).
    { intros x [<- | Hx]; auto. }
    pose proof (NoDup_incl_length Hnd' Hincl') as Hle.
    simpl in Hle, Hlen. lia.
  - destruct (keys_lookup t r Hr) as [tk Hl].
    destruct (Hkids r tk Hl) as [_ Hgov].
    simpl. unfold get_kids, getitem. rewrite Hl. cbn [bind].
    destruct (kids tk) as [| c0 ch0] eqn:Hshape; [eauto |].
    rewrite <- Hshape in *.
    destruct (for_each_inv (fun _ : list Z => True)
                (fun c descendants =>
                   x <- get_descendants fuel t c ;;
                   match x with
                   | [] => Ok descendants
                   | _ => Ok (descendants ++ x)
                   end) (kids tk)) with (s := kids tk)
      as (out & Hout & _); auto; [| eauto].
    intros c s Hc _.
    assert (Hrc : governs t r c) by now apply Hgov.
    destruct (IH c (r :: anc)) as (x & Hx).
    + now apply governs_in_keys with r.
    + constructor; [| exact Hnd].
      intros Hin. now apply (Hacyclic r), Hanc.
    + intros a [<- | Ha]; auto.
    + intros a [<- | Ha]; [now apply t_step |].
      apply t_trans with r; [now apply Hanc | now apply t_step].
    + simpl. lia.
    + rewrite Hx. cbn [bind]. destruct x; eauto.
Qed.
End Descendants.

(** On a well-formed tree [get_descendants] returns every descendant of
    its start once and nothing else, and it returns on any token with
    fuel for one frame per token. *)
Theorem get_descendants_spec (t : Tree) :
  wf_tree t ->
  (forall fuel r ds,
      get_descendants fuel (addkids t) r = Ok ds ->
      NoDup ds /\ forall d, In d ds <-> descendant t r d)
  /\ (forall fuel r,
         In r (keys t) -> (List.length t <= fuel)%nat ->
         exists ds, get_descendants fuel (addkids t) r = Ok ds).
Proof.
  intros Hwf.
  pose proof (kids_derived_addkids t (proj1 Hwf)) as Hkids.
  pose proof (proj2 (wf_tree_addkids t Hwf)) as Hacyclic.
  split.
  - intros fuel r ds H. split.
    + now apply (descendants_NoDup (addkids t) Hkids Hacyclic fuel r).
    + intros d. rewrite <- descendant_addkids.
      now apply descendants_collects with fuel.
  - intros fuel r Hr Hlen.
    apply (descendants_returns (addkids t) Hkids Hacyclic fuel r []).
    + now rewrite keys_addkids.
    + constructor.
    + intros a [].
    + intros a [].
    + rewrite keys_addkids. unfold keys. rewrite length_map. simpl. lia.
Qed.

Lemma get_descendants_spec_witness :
  (NoDup [1; 2; 8; 5; 6; 7]
   /\ forall d, In d [1; 2; 8; 5; 6; 7] <-> descendant tree_example 3 d)
  /\ exists ds, get_descendants 7 (addkids tree_example) 3 = Ok ds.
Proof.
  destruct (get_descendants_spec tree_example wf_tree_example)
    as [Hspec Htotal].
  split.
  - apply (Hspec 7%nat). reflexivity.
  - apply Htotal; simpl; [tauto | lia].
Defined.

(* ------------------------------------------------------------------ *)
(** ** The finder against [get_descendants] *)

Lemma drop_anchors_id (t : Tree) (l : list Z) :
  (forall c, In c l ->
     exists v, is_finite_verb_or_sconj t c = Ok v /\ truthy v = false) ->
  drop_anchors t l = Ok l.
Proof.
  induction l as [| c l IH]; intros H; [reflexivity |].
  simpl. destruct (H c) as (v & Hv & Hf); [now left |].
  rewrite Hv, IH; [| intros c' Hc'; apply H; now right].
  simpl. now rewrite Hf.
Qed.

Lemma extend_loop_build (fuel : nat) (t : Tree) (cs : list Z)
    (xs : list (list Z)) :
  Forall2 (fun c x => get_descendants_until_Fin_Verb fuel t c = Ok x
                      /\ drop_anchors t x = Ok x) cs xs ->
  forall descendants,
    for_each cs descendants (fun c descendants =>
      x <- get_descendants_until_Fin_Verb fuel t c ;;
      match x with
      | [] => Ok descendants
      | _ => x <- drop_anchors t x ;; Ok (descendants ++ x)
      end) = Ok (descendants ++ List.concat xs).
Proof.
  induction 1 as [| c x cs xs [Hx Hdrop] _ IH]; intros descendants; simpl.
  - now rewrite app_nil_r.
  - rewrite Hx. cbn [bind]. destruct x as [| z x].
    + cbn [bind]. rewrite IH. reflexivity.
    + rewrite Hdrop. cbn [bind]. rewrite IH. now rewrite <- app_assoc.
Qed.

(** Where no descendant is an anchor the finder returns what
    [get_descendants] returns, in the same order. *)
Theorem finder_without_anchors (t : Tree) (fuel : nat) :
  forall r ds,
    get_descendants fuel t r = Ok ds ->
    (forall d, In d ds ->
       exists v, is_finite_verb_or_sconj t d = Ok v /\ truthy v = false) ->
    get_descendants_until_Fin_Verb fuel t r = Ok ds.
Proof.
  induction fuel as [| fuel IH]; intros r ds H Hna; [discriminate H |].
  apply descendants_frame in H. destruct H as (tk & xs & Hl & HF & ->).
  rewrite finder_unfold. unfold get_kids, getitem. rewrite Hl. cbn [bind].
  rewrite drop_anchors_id;
    [| intros c Hc; apply Hna, in_or_app; now left].
  cbn [bind].
  assert (HF' : Forall2 (fun c x =>
                  get_descendants_until_Fin_Verb fuel t c = Ok x
                  /\ drop_anchors t x = Ok x) (kids tk) xs).
  { apply (Forall2_impl_In _ _ _ _ HF). intros c x _ Hx Hcx.
    assert (Hsub : forall d, In d x ->
              exists v, is_finite_verb_or_sconj t d = Ok v
                        /\ truthy v = false).
    { intros d Hd. apply Hna, in_or_app. right.
      apply in_concat. now exists x. }
    split; [now apply IH | now apply drop_anchors_id]. }
  destruct (kids tk) as [| c cs] eqn:Hshape.
  - inversion HF; subst. reflexivity.
  - now apply extend_loop_build.
Qed.

Lemma finder_without_anchors_witness :
  get_descendants_until_Fin_Verb 7 (addkids tree_no_anchor) 2 = Ok [1].
Proof.
  apply finder_without_anchors; [reflexivity |].
  intros d [<- | []]. exists None. split; reflexivity.
Defined.

(* ------------------------------------------------------------------ *)
(** ** Governor cycles *)

(** On a governor cycle neither recursion returns, whatever depth is
    allowed: [get_descendants] from any token of a cycle, the finder from
    any token of a cycle of tokens that are not anchors. *)
Theorem cycle_never_returns (t : Tree) :
  kids_derived t ->
  (forall r, descendant t r r ->
     forall fuel, exists e, get_descendants fuel t r = Raise e)
  /\ (forall r, unblocked t r r ->
        forall fuel,
        exists e, get_descendants_until_Fin_Verb fuel t r = Raise e).
Proof.
  intros Hkids. split.
  - intros r Hc fuel. revert r Hc.
    induction fuel as [| fuel IH]; intros r Hc; [now eexists |].
    destruct (get_descendants (S fuel) t r) as [ds | e] eqn:H;
      [| now exists e].
    exfalso.
    apply descendants_frame in H. destruct H as (tk & xs & Hl & HF & _).
    destruct (clos_trans_first _ _ _ Hc) as (c & Hg & Hcr).
    assert (Hcc : descendant t c c).
    { destruct Hcr as [-> | Hcr]; [exact Hc |].
      apply t_trans with r; [exact Hcr | now apply t_step]. }
    apply (proj2 (Hkids r tk Hl)) in Hg.
    destruct (Forall2_In_l _ _ _ _ HF Hg) as (x & _ & Hx).
    destruct (IH c Hcc) as [e He]. congruence.
  - intros r Hc fuel. revert r Hc.
    induction fuel as [| fuel IH]; intros r Hc; [now eexists |].
    destruct (get_descendants_until_Fin_Verb (S fuel) t r)
      as [ds | e] eqn:H; [| now exists e].
    exfalso.
    apply finder_frame in H. destruct H as (tk & xs & Hl & HF & _).
    destruct (clos_trans_first _ _ _ Hc) as (c & Hg & Hcr).
    assert (Hcc : unblocked t c c).
    { destruct Hcr as [-> | Hcr]; [exact Hc |].
      apply t_trans with r; [exact Hcr | now apply t_step]. }
    apply (kept_child t Hkids r c tk Hl) in Hg.
    destruct (Forall2_In_l _ _ _ _ HF Hg) as (x & _ & x0 & Hx0 & _).
    destruct (IH c Hcc) as [e He]. congruence.
Qed.

Definition tree_cycle : Tree :=
  [ (1, tok "NOUN" "NNFS1-----A----" 2 "mod");
    (2, tok "NOUN" "NNFS1-----A----" 1 "mod") ].

Lemma cycle_never_returns_witness :
  (exists e, get_descendants 50 (addkids tree_cycle) 1 = Raise e)
  /\ (exists e,
        get_descendants_until_Fin_Verb 50 (addkids tree_cycle) 1
        = Raise e).
Proof.
  assert (Hkids : kids_derived (addkids tree_cycle)).
  { apply kids_derived_addkids, nodupb_NoDup. reflexivity. }
  assert (H12 : clause_edge (addkids tree_cycle) 1 2).
  { split; [| reflexivity].
    exists (set_kids [1] (tok "NOUN" "NNFS1-----A----" 1 "mod")).
    split; reflexivity. }
  assert (H21 : clause_edge (addkids tree_cycle) 2 1).
  { split; [| reflexivity].
    exists (set_kids [2] (tok "NOUN" "NNFS1-----A----" 2 "mod")).
    split; reflexivity. }
  destruct (cycle_never_returns (addkids tree_cycle) Hkids) as [Hd Hf].
  split.
  - apply Hd. apply t_trans with 2; apply t_step; [apply H12 | apply H21].
  - apply Hf. apply t_trans with 2; apply t_step; [exact H12 | exact H21].
Defined.

(* ------------------------------------------------------------------ *)
(** ** Clauses and anchors *)

Lemma is_anchor_in_keys (t : Tree) (i : Z) :
  is_anchor t i = true -> In i (keys t).
Proof.
  unfold is_anchor, is_finite_verb_or_sconj, getitem.
  destruct (lookup t i) as [tk |] eqn:Hl; [| discriminate].
  intros _. now apply lookup_Some_keys with tk.
Qed.

Lemma nearest_anchor (t : Tree) (a d : Z) :
  is_anchor t a = true ->
  descendant t a d ->
  exists r, is_anchor t r = true /\ (r = d \/ unblocked t r d).
Proof.
  intros Ha Had. apply clos_trans_tn1 in Had.
  induction Had as [d Hg | y d Hg _ IH];
    destruct (is_anchor t d) eqn:Hd; try (exists d; now auto).
  - exists a. split; [exact Ha |]. right. now apply t_step.
  - destruct IH as (r & Hr & [-> | Hry]).
    + exists y. split; [exact Hr |]. right. now apply t_step.
    + exists r. split; [exact Hr |]. right.
      apply t_trans with y; [exact Hry | now apply t_step].
Qed.

(** [clause_segmentation] returns one clause per anchor, in the order of
    the anchors in the sentence, and the anchor a clause was built from
    is the only anchor in it. *)
Theorem clause_has_one_anchor (t : Tree) :
  wf_tree t ->
  forall fuel clauses,
    clause_segmentation fuel t = Ok clauses ->
    List.length clauses = List.length (anchors t)
    /\ Forall2 (fun r clause =>
                  forall x, In x clause ->
                            (is_anchor (addkids t) x = true <-> x = r))
               (anchors t) clauses.
Proof.
  intros Hwf fuel clauses H.
  apply clause_segmentation_pairs in H. split.
  - symmetry. now apply Forall2_length with (1 := H).
  - apply (Forall2_impl_In _ _ _ _ H).
    intros r clause Hr _ Hc x Hx.
    apply (proj2 (clause_members t Hwf fuel r clause Hc)) in Hx.
    unfold anchors in Hr. apply filter_In in Hr. destruct Hr as [_ Hr].
    split.
    + intros Ha. destruct Hx as [-> | Hu]; [reflexivity |].
      apply unblocked_not_anchor in Hu. congruence.
    + now intros ->.
Qed.

Lemma clause_has_one_anchor_witness :
  List.length [[2]; [1; 3; 5; 6; 8]; [7]]
  = List.length (anchors tree_example)
  /\ Forall2 (fun r clause =>
                forall x, In x clause ->
                          (is_anchor (addkids tree_example) x = true
                           <-> x = r))
             (anchors tree_example) [[2]; [1; 3; 5; 6; 8]; [7]].
Proof.
  apply (clause_has_one_anchor tree_example wf_tree_example 7%nat).
  reflexivity.
Defined.

(** The clauses cover exactly the anchors and the tokens below an
    anchor: a token that is no anchor and has no anchor among its
    ancestors is in no clause. *)
Theorem clauses_cover (t : Tree) :
  wf_tree t ->
  forall fuel clauses,
    clause_segmentation fuel t = Ok clauses ->
    forall d,
      (exists clause, In clause clauses /\ In d clause)
      <-> (is_anchor (addkids t) d = true
           \/ exists a, is_anchor (addkids t) a = true
                        /\ descendant t a d).
Proof.
  intros Hwf fuel clauses H d.
  apply clause_segmentation_pairs in H.
  assert (Hin : forall r, is_anchor (addkids t) r = true ->
                  exists clause, In clause clauses
                                 /\ clause_of fuel t r clause).
  { intros r Hr. apply (Forall2_In_l _ _ _ _ H).
    unfold anchors. apply filter_In. split; [| exact Hr].
    rewrite <- keys_addkids. now apply is_anchor_in_keys. }
  split.
  - intros (clause & Hc & Hd).
    destruct (Forall2_In_r _ _ _ _ H Hc) as (r & Hr & Hrc).
    unfold anchors in Hr. apply filter_In in Hr. destruct Hr as [_ Hr].
    apply (proj2 (clause_members t Hwf fuel r clause Hrc)) in Hd.
    destruct Hd as [-> | Hu]; [now left |].
    right. exists r. split; [exact Hr |].
    apply descendant_addkids. now apply unblocked_descendant.
  - assert (Hmember : forall r, is_anchor (addkids t) r = true ->
                        r = d \/ unblocked (addkids t) r d ->
                        exists clause, In clause clauses /\ In d clause).
    { intros r Hr Hrd. destruct (Hin r Hr) as (clause & Hc & Hrc).
      exists clause. split; [exact Hc |].
      apply (proj2 (clause_members t Hwf fuel r clause Hrc)).
      destruct Hrd as [-> | Hu]; auto. }
    intros [Hd | (a & Ha & Had)].
    + apply (Hmember d Hd). now left.
    + apply descendant_addkids in Had.
      destruct (nearest_anchor (addkids t) a d Ha Had) as (r & Hr & Hrd).
      now apply (Hmember r Hr).
Qed.

Lemma clauses_cover_witness :
  (exists clause, In clause [[2]; [1; 3; 5; 6; 8]; [7]] /\ In 6 clause)
  <-> (is_anchor (addkids tree_example) 6 = true
       \/ exists a, is_anchor (addkids tree_example) a = true
                    /\ descendant tree_example a 6).
Proof.
  apply (clauses_cover tree_example wf_tree_example 7%nat).
  reflexivity.
Defined.
